(** * PRIMME example driver [examples/ex_eigs_dseq.c]

    A shallow embedding of the sequential double-precision example of the
    PRIMME eigensolver: the two operator callbacks
    [LaplacianMatrixMatvec] and [LaplacianApplyPreconditioner], and the
    driver [main] that configures the solver, calls it and reports.

    - C [double] buffers live in one flat store addressed in units of one
      [double]; a [double *] is the index of its first cell, so that the
      pointer arithmetic [(double * )x + *ldx*i] and any overlap between
      the input and the output buffer are those of the C program.
    - The arithmetic on [double] is an interface ([Arith]) with two
      instances: IEEE binary64 ([float]) and exact real arithmetic ([R]).
    - [int] and [PRIMME_INT] values are integers of [Z]; the loops
      [for (i=0; i<hi; i++)] run [Z.to_nat hi] times, which is what the C
      loop does for every [hi], negative ones included.  Overflow of a
      machine integer (a dimension above [INT_MAX], an offset [ldx*i]
      above the range of [PRIMME_INT]) has no defined behaviour in C and
      is outside the model, and so is an access outside of an allocated
      buffer: every cell of the store can be read and written. *)

From Stdlib Require Import ZArith Lia List Bool String Reals Lra.
From Stdlib Require Import PrimFloat Uint63.
Import ListNotations.

Set Implicit Arguments.
Local Open Scope Z_scope.

(** ** Arithmetic of [double] *)

(** The operations and literals the source file applies to [double]s. *)
Class Arith (F : Type) : Type := {
  lit_0_0   : F;                 (* 0.0  *)
  lit_m1_0  : F;                 (* -1.0 *)
  lit_2_0   : F;                 (* 2.0 and 2. *)
  lit_1em9  : F;                 (* 1e-9 *)
  fadd : F -> F -> F;
  fmul : F -> F -> F;
  fdiv : F -> F -> F
}.

(** IEEE 754 binary64, the [double] of the C program. *)
#[export] Instance float_Arith : Arith float := {
  lit_0_0  := PrimFloat.zero;
  lit_m1_0 := PrimFloat.opp PrimFloat.one;
  lit_2_0  := PrimFloat.two;
  lit_1em9 := 0x1.12e0be826d695p-30%float;     (* the double nearest to 1e-9 *)
  fadd := PrimFloat.add;
  fmul := PrimFloat.mul;
  fdiv := PrimFloat.div
}.

(** Exact arithmetic. *)
#[export] Instance R_Arith : Arith R := {
  lit_0_0  := 0%R;
  lit_m1_0 := (-1)%R;
  lit_2_0  := 2%R;
  lit_1em9 := (/ 1000000000)%R;
  fadd := Rplus;
  fmul := Rmult;
  fdiv := Rdiv
}.

(** ** Loops and the store of [double]s *)

Section Loops.
Context {S : Type}.

(** [k] more iterations of [for (...; ...; i++) body], the counter at [i]. *)
Fixpoint for_from (k : nat) (i : Z) (body : Z -> S -> S) (s : S) : S :=
  match k with
  | O => s
  | Datatypes.S k' => for_from k' (i + 1) body (body i s)
  end.

(** [for (i = 0; i < hi; i++) body] *)
Definition for_upto (hi : Z) (body : Z -> S -> S) (s : S) : S :=
  for_from (Z.to_nat hi) 0 body s.
End Loops.

Section Store.
Context {F : Type}.

Definition mem : Type := Z -> F.

Definition load (a : Z) (m : mem) : F := m a.

Definition store (a : Z) (v : F) (m : mem) : mem :=
  fun a' => if a' =? a then v else m a'.
End Store.

Arguments mem F : clear implicits.

(** What a callback works on: the [double]s, and the [int] its last
    argument points to. *)
Record state (F : Type) : Type := {
  doubles : mem F;
  status : Z
}.

(** ** The problem descriptor [primme_params]

    Only its declaration site ([primme.h]) is outside this file's source;
    the fields are those the example reads or writes. *)

(** Modelled from the spec: the target criteria of the problem descriptor
    (smallest, largest, closest to a shift, interior).  The enumeration is
    declared in [primme.h]; the example names [primme_smallest] only. *)
Inductive primme_target : Type :=
  | primme_smallest
  | primme_largest
  | primme_closest_to_shift
  | primme_interior.

(** The preset methods that the example names. *)
Inductive primme_preset_method : Type :=
  | PRIMME_DYNAMIC
  | PRIMME_DEFAULT_MIN_TIME
  | PRIMME_DEFAULT_MIN_MATVECS
  | PRIMME_LOBPCG_OrthoBasis_Window.

(** The two functions of the file a callback field can point to. *)
Inductive callback : Type :=
  | LaplacianMatrixMatvec_ptr
  | LaplacianApplyPreconditioner_ptr.

Record primme_stats : Type := {
  numOuterIterations : Z;
  numRestarts : Z;
  numMatvecs : Z;
  numPreconds : Z
}.

Record correction_params : Type := {
  precondition : Z
}.

Record primme_params (F : Type) : Type := {
  n : Z;
  matrixMatvec : option callback;
  applyPreconditioner : option callback;
  numEvals : Z;
  target : primme_target;
  locking : Z;
  initSize : Z;
  dynamicMethodSwitch : Z;
  aNorm : F;
  eps : F;
  intWork : option (Z -> Z);          (* [int *], [None] is the null pointer *)
  correctionParams : correction_params;
  stats : primme_stats
}.

(** ** The operator callbacks *)

Section Callbacks.
Context {F : Type} `{Arith F}.

(** Body of the inner loop of [LaplacianMatrixMatvec] (lines 171-174):
    every [yvec[row] += e] is a load of [yvec[row]], the evaluation of
    [e] and a store. *)
Definition matvec_row (xvec yvec dim row : Z) (m : mem F) : mem F :=
  let m1 := store (yvec + row) lit_0_0 m in
  let m2 :=
    if row - 1 >=? 0
    then store (yvec + row)
           (fadd (load (yvec + row) m1)
                 (fmul lit_m1_0 (load (xvec + (row - 1)) m1))) m1
    else m1 in
  let m3 :=
    store (yvec + row)
      (fadd (load (yvec + row) m2)
            (fmul lit_2_0 (load (xvec + row) m2))) m2 in
  if row + 1 <? dim
  then store (yvec + row)
         (fadd (load (yvec + row) m3)
               (fmul lit_m1_0 (load (xvec + (row + 1)) m3))) m3
  else m3.

(** Body of the inner loop of [LaplacianApplyPreconditioner] (line 198). *)
Definition precond_row (xvec yvec dim row : Z) (m : mem F) : mem F :=
  store (yvec + row) (fdiv (load (xvec + row) m) lit_2_0) m.

(** [void LaplacianMatrixMatvec(void *x, PRIMME_INT *ldx, void *y,
    PRIMME_INT *ldy, int *blockSize, primme_params *primme, int *err)]:
    [x], [y] are the pointers, the other arguments the pointed values. *)
Definition LaplacianMatrixMatvec (x ldx y ldy blockSize : Z)
    (primme : primme_params F) (s : state F) : state F :=
  let m :=
    for_upto blockSize (fun i m =>
      let xvec := x + ldx * i in
      let yvec := y + ldy * i in
      for_upto (n primme) (fun row m =>
        matvec_row xvec yvec (n primme) row m) m) (doubles s) in
  {| doubles := m; status := 0 |}.

(** [void LaplacianApplyPreconditioner(void *x, PRIMME_INT *ldx, void *y,
    PRIMME_INT *ldy, int *blockSize, primme_params *primme, int *ierr)]. *)
Definition LaplacianApplyPreconditioner (x ldx y ldy blockSize : Z)
    (primme : primme_params F) (s : state F) : state F :=
  let m :=
    for_upto blockSize (fun i m =>
      let xvec := x + ldx * i in
      let yvec := y + ldy * i in
      for_upto (n primme) (fun row m =>
        precond_row xvec yvec (n primme) row m) m) (doubles s) in
  {| doubles := m; status := 0 |}.

(** The same callback applied to the [blockSize] vectors one at a time,
    each call with block width 1. *)
Definition one_at_a_time
    (f : Z -> Z -> Z -> Z -> Z -> primme_params F -> state F -> state F)
    (x ldx y ldy blockSize : Z) (primme : primme_params F)
    (s : state F) : state F :=
  for_upto blockSize (fun i s =>
    f (x + ldx * i) ldx (y + ldy * i) ldy 1 primme s) s.
End Callbacks.

(** ** The driver [main] *)

(** Field updates of the configuration struct. *)
Section Setters.
Context {F : Type}.
Implicit Type p : primme_params F.

Definition set_matrixMatvec (v : option callback) p : primme_params F :=
  {| n := n p; matrixMatvec := v;
     applyPreconditioner := applyPreconditioner p; numEvals := numEvals p;
     target := target p; locking := locking p; initSize := initSize p;
     dynamicMethodSwitch := dynamicMethodSwitch p; aNorm := aNorm p;
     eps := eps p; intWork := intWork p;
     correctionParams := correctionParams p; stats := stats p |}.

Definition set_n (v : Z) p : primme_params F :=
  {| n := v; matrixMatvec := matrixMatvec p;
     applyPreconditioner := applyPreconditioner p; numEvals := numEvals p;
     target := target p; locking := locking p; initSize := initSize p;
     dynamicMethodSwitch := dynamicMethodSwitch p; aNorm := aNorm p;
     eps := eps p; intWork := intWork p;
     correctionParams := correctionParams p; stats := stats p |}.

Definition set_numEvals (v : Z) p : primme_params F :=
  {| n := n p; matrixMatvec := matrixMatvec p;
     applyPreconditioner := applyPreconditioner p; numEvals := v;
     target := target p; locking := locking p; initSize := initSize p;
     dynamicMethodSwitch := dynamicMethodSwitch p; aNorm := aNorm p;
     eps := eps p; intWork := intWork p;
     correctionParams := correctionParams p; stats := stats p |}.

Definition set_eps (v : F) p : primme_params F :=
  {| n := n p; matrixMatvec := matrixMatvec p;
     applyPreconditioner := applyPreconditioner p; numEvals := numEvals p;
     target := target p; locking := locking p; initSize := initSize p;
     dynamicMethodSwitch := dynamicMethodSwitch p; aNorm := aNorm p;
     eps := v; intWork := intWork p;
     correctionParams := correctionParams p; stats := stats p |}.

Definition set_target (v : primme_target) p : primme_params F :=
  {| n := n p; matrixMatvec := matrixMatvec p;
     applyPreconditioner := applyPreconditioner p; numEvals := numEvals p;
     target := v; locking := locking p; initSize := initSize p;
     dynamicMethodSwitch := dynamicMethodSwitch p; aNorm := aNorm p;
     eps := eps p; intWork := intWork p;
     correctionParams := correctionParams p; stats := stats p |}.

Definition set_applyPreconditioner (v : option callback) p : primme_params F :=
  {| n := n p; matrixMatvec := matrixMatvec p;
     applyPreconditioner := v; numEvals := numEvals p;
     target := target p; locking := locking p; initSize := initSize p;
     dynamicMethodSwitch := dynamicMethodSwitch p; aNorm := aNorm p;
     eps := eps p; intWork := intWork p;
     correctionParams := correctionParams p; stats := stats p |}.

Definition set_precondition (v : Z) p : primme_params F :=
  {| n := n p; matrixMatvec := matrixMatvec p;
     applyPreconditioner := applyPreconditioner p; numEvals := numEvals p;
     target := target p; locking := locking p; initSize := initSize p;
     dynamicMethodSwitch := dynamicMethodSwitch p; aNorm := aNorm p;
     eps := eps p; intWork := intWork p;
     correctionParams := {| precondition := v |}; stats := stats p |}.
End Setters.

(** What [main] does that its user sees, in order. *)
Inductive arg (F : Type) : Type :=
  | ArgInt (z : Z)
  | ArgDouble (d : F).

Inductive event (F : Type) : Type :=
  | display_params (p : primme_params F)         (* primme_display_params(primme) *)
  | fprintf (fmt : string) (args : list (arg F)). (* fprintf(primme.outputFile, fmt, args) *)

Arguments ArgInt {F} z.
Arguments ArgDouble {F} d.
Arguments display_params {F} p.
Arguments fprintf {F} fmt args.

(** What the call [dprimme(evals, evecs, rnorms, &primme)] leaves behind. *)
Record solved (F : Type) : Type := {
  ret : Z;
  evals : Z -> F;
  evecs : Z -> F;
  rnorms : Z -> F;
  primme_after : primme_params F
}.

(** The newline of a C string literal. *)
Definition LF : string := String (Ascii.ascii_of_nat 10) EmptyString.

Definition fmt_error : string :=
  "Error: primme returned with nonzero exit status: %d " ++ LF.
Definition fmt_eval : string :=
  "Eval[%d]: %-22.15E rnorm: %-22.15E" ++ LF.
Definition fmt_converged : string := " %d eigenpairs converged" ++ LF.
Definition fmt_tolerance : string := "Tolerance : %-22.15E" ++ LF.
Definition fmt_locking_1 : string :=
  LF ++ "A locking problem has occurred." ++ LF.
Definition fmt_locking_2 : string :=
  "Some eigenpairs do not have a residual norm less than the tolerance." ++ LF.
Definition fmt_locking_3 : string :=
  "However, the subspace of evecs is accurate to the required tolerance." ++ LF.
Definition fmt_min_matvecs : string :=
  "Recommended method for next run: DEFAULT_MIN_MATVECS" ++ LF.
Definition fmt_min_time : string :=
  "Recommended method for next run: DEFAULT_MIN_TIME" ++ LF.
Definition fmt_close_call : string :=
  "Recommended method for next run: DYNAMIC (close call)" ++ LF.

Section Driver.
Context {F : Type} `{Arith F}.

(** From [primme.h] and the library, outside this file's source: the
    [printf] length modifier of [PRIMME_INT], the defaults that
    [primme_initialize] writes, what [primme_set_method] makes of a
    configuration, and the solver itself. *)
Variable PRIMME_INT_P : string.
Variable primme_initialize : primme_params F.
Variable primme_set_method :
  primme_preset_method -> primme_params F -> primme_params F.
Variable dprimme : primme_params F -> solved F.

Definition fmt_iterations : string := "Iterations: %-" ++ PRIMME_INT_P ++ LF.
Definition fmt_restarts : string := "Restarts  : %-" ++ PRIMME_INT_P ++ LF.
Definition fmt_matvecs : string := "Matvecs   : %-" ++ PRIMME_INT_P ++ LF.
Definition fmt_preconds : string := "Preconds  : %-" ++ PRIMME_INT_P ++ LF.

Definition emit (e : event F) (out : list (event F)) : list (event F) :=
  out ++ [e].

(** Lines 61-77: the configuration before the method is set. *)
Definition configure : primme_params F :=
  let primme := primme_initialize in
  let primme := set_matrixMatvec (Some LaplacianMatrixMatvec_ptr) primme in
  let primme := set_n 100 primme in
  let primme := set_numEvals 10 primme in
  let primme := set_eps lit_1em9 primme in
  let primme := set_target primme_smallest primme in
  let primme :=
    set_applyPreconditioner (Some LaplacianApplyPreconditioner_ptr) primme in
  set_precondition 1 primme.

(** Line 88: the struct handed to [primme_display_params] and [dprimme]. *)
Definition solver_input : primme_params F :=
  primme_set_method PRIMME_DYNAMIC configure.

(** Lines 111-138: the report of a solve that returned 0. *)
Definition report (r : solved F) (out : list (event F)) : list (event F) :=
  let primme := primme_after r in
  let out :=
    for_upto (initSize primme) (fun i out =>
      emit (fprintf fmt_eval
              [ArgInt (i + 1); ArgDouble (evals r i); ArgDouble (rnorms r i)])
           out) out in
  let out := emit (fprintf fmt_converged [ArgInt (initSize primme)]) out in
  let out :=
    emit (fprintf fmt_tolerance
            [ArgDouble (fmul (aNorm primme) (eps primme))]) out in
  let out :=
    emit (fprintf fmt_iterations
            [ArgInt (numOuterIterations (stats primme))]) out in
  let out :=
    emit (fprintf fmt_restarts [ArgInt (numRestarts (stats primme))]) out in
  let out :=
    emit (fprintf fmt_matvecs [ArgInt (numMatvecs (stats primme))]) out in
  let out :=
    emit (fprintf fmt_preconds [ArgInt (numPreconds (stats primme))]) out in
  let out :=
    if negb (locking primme =? 0)
       && match intWork primme with
          | Some w => w 0 =? 1
          | None => false
          end
    then
      let out := emit (fprintf fmt_locking_1 []) out in
      let out := emit (fprintf fmt_locking_2 []) out in
      emit (fprintf fmt_locking_3 []) out
    else out in
  match dynamicMethodSwitch primme with
  | -1 => emit (fprintf fmt_min_matvecs []) out
  | -2 => emit (fprintf fmt_min_time []) out
  | -3 => emit (fprintf fmt_close_call []) out
  | _ => out
  end.

(** [int main (int argc, char *argv[])]: the returned value and what was
    written, in order.  The three result arrays are allocated before the
    call and freed after the report; on the error path they are not. *)
Definition main : Z * list (event F) :=
  let primme := solver_input in
  let out := emit (display_params primme) [] in
  let r := dprimme primme in
  if negb (ret r =? 0)
  then (-1, emit (fprintf fmt_error [ArgInt (ret r)]) out)
  else (0, report r out).
End Driver.

(** ** Layout of a block and the values a callback leaves *)

(** The cells [y[ld*i + row]], [0 <= i < b], [0 <= row < dim]. *)
Definition in_block (y ld b dim a : Z) : Prop :=
  exists i row, 0 <= i < b /\ 0 <= row < dim /\ a = y + ld * i + row.

(** No cell of the input block is a cell of the output block. *)
Definition separate (x ldx y ldy b dim : Z) : Prop :=
  forall i r j r',
    0 <= i < b -> 0 <= r < dim -> 0 <= j < b -> 0 <= r' < dim ->
    x + ldx * i + r <> y + ldy * j + r'.

(** The two nested loops of a callback around a row kernel [row_body]. *)
Definition column {F : Type} (row_body : Z -> Z -> Z -> Z -> mem F -> mem F)
    (xvec yvec dim : Z) (m : mem F) : mem F :=
  for_upto dim (row_body xvec yvec dim) m.

Definition block {F : Type} (row_body : Z -> Z -> Z -> Z -> mem F -> mem F)
    (x ldx y ldy b dim : Z) (m : mem F) : mem F :=
  for_upto b (fun i m => column row_body (x + ldx * i) (y + ldy * i) dim m) m.

Section Values.
Context {F : Type} `{Arith F}.

(** The value that [matvec_row] accumulates in [yvec[row]], as a function
    of the input column [xv]. *)
Definition lap_row (dim : Z) (xv : Z -> F) (row : Z) : F :=
  let acc := lit_0_0 in
  let acc :=
    if row - 1 >=? 0 then fadd acc (fmul lit_m1_0 (xv (row - 1))) else acc in
  let acc := fadd acc (fmul lit_2_0 (xv row)) in
  if row + 1 <? dim then fadd acc (fmul lit_m1_0 (xv (row + 1))) else acc.

(** The value that [precond_row] stores in [yvec[row]]. *)
Definition half_row (dim : Z) (xv : Z -> F) (row : Z) : F :=
  fdiv (xv row) lit_2_0.
End Values.

(** ** Exact arithmetic: the tridiagonal matrix and inner products *)

Local Open Scope R_scope.

(** [2] on the diagonal, [-1] on the sub- and super-diagonal. *)
Definition tridiag (i j : Z) : R :=
  if (i =? j)%Z then 2
  else if ((i =? j + 1) || (j =? i + 1))%Z then -1
  else 0.

(** [f 0 + f 1 + ... + f (k-1)] *)
Fixpoint sum_upto (k : nat) (f : Z -> R) : R :=
  match k with
  | O => 0
  | Datatypes.S k' => sum_upto k' f + f (Z.of_nat k')
  end.

(** Row [row] of the product of a [dim] x [dim] matrix with a vector. *)
Definition mat_vec (dim : Z) (A : Z -> Z -> R) (v : Z -> R) (row : Z) : R :=
  sum_upto (Z.to_nat dim) (fun j => A row j * v j).

Definition dot (dim : Z) (u v : Z -> R) : R :=
  sum_upto (Z.to_nat dim) (fun r => u r * v r).

(** A vector of length [dim] continued by zero on both sides. *)
Definition ext0 (dim : Z) (v : Z -> R) (r : Z) : R :=
  if ((0 <=? r) && (r <? dim))%Z then v r else 0.

(** The operator as the solver sees it: the vector [v] is laid out at
    cells [0 .. n-1], the callback is called on it with block width 1 and
    the output column at cells [n .. 2n-1], and the output is read back. *)
Definition apply_operator (primme : primme_params R) (v : Z -> R) (row : Z) : R :=
  let dim := n primme in
  doubles
    (LaplacianMatrixMatvec 0 dim dim dim 1 primme {| doubles := v; status := 0 |})
    (dim + row)%Z.

Local Close Scope R_scope.

(** ** Reading the driver's output *)

Section Output.
Context {F : Type}.

(** The events [g i], [g (i+1)], ..., [k] of them. *)
Fixpoint lines_from (k : nat) (i : Z) (g : Z -> event F) : list (event F) :=
  match k with
  | O => []
  | Datatypes.S k' => g i :: lines_from k' (i + 1) g
  end.

(** The line that reports eigenpair [i] of a solve. *)
Definition eval_line (r : solved F) (i : Z) : event F :=
  fprintf fmt_eval
    [ArgInt (i + 1); ArgDouble (evals r i); ArgDouble (rnorms r i)].

(** The three lines of the locking warning. *)
Definition locking_warning : list (event F) :=
  [fprintf fmt_locking_1 []; fprintf fmt_locking_2 [];
   fprintf fmt_locking_3 []].

(** Locking is enabled, the integer workspace pointer is not null and its
    first slot is 1. *)
Definition locking_problem (p : primme_params F) : Prop :=
  locking p <> 0 /\ exists w, intWork p = Some w /\ w 0 = 1.

(** An event is one of the three recommendation lines. *)
Definition is_recommendation (e : event F) : bool :=
  match e with
  | fprintf fmt _ =>
      String.eqb fmt fmt_min_matvecs || String.eqb fmt fmt_min_time
      || String.eqb fmt fmt_close_call
  | display_params _ => false
  end.

(** The recommendation that belongs to a recommendation value. *)
Definition recommendation (v : Z) : list (event F) :=
  if v =? -1 then [fprintf fmt_min_matvecs []]
  else if v =? -2 then [fprintf fmt_min_time []]
  else if v =? -3 then [fprintf fmt_close_call []]
  else [].
End Output.

(** The six lines between the eigenpairs and the locking warning. *)
Definition summary_lines {F : Type} `{Arith F} (PRIMME_INT_P : string)
    (p : primme_params F) : list (event F) :=
  [fprintf fmt_converged [ArgInt (initSize p)];
   fprintf fmt_tolerance [ArgDouble (fmul (aNorm p) (eps p))];
   fprintf (fmt_iterations PRIMME_INT_P) [ArgInt (numOuterIterations (stats p))];
   fprintf (fmt_restarts PRIMME_INT_P) [ArgInt (numRestarts (stats p))];
   fprintf (fmt_matvecs PRIMME_INT_P) [ArgInt (numMatvecs (stats p))];
   fprintf (fmt_preconds PRIMME_INT_P) [ArgInt (numPreconds (stats p))]].

(** ** The preconditioner as an operator, in-place calls, the spectrum *)

(** The preconditioner as the solver sees it, laid out as for
    [apply_operator]. *)
Definition apply_preconditioner (primme : primme_params R) (v : Z -> R)
    (row : Z) : R :=
  let dim := n primme in
  doubles
    (LaplacianApplyPreconditioner 0 dim dim dim 1 primme
       {| doubles := v; status := 0 |})
    (dim + row).

(** The value that [matvec_row] leaves in [yvec[row]] when [xvec] and [yvec]
    are the same pointer: [xvec[row-1]] is then the output of the row before
    ([prev]), [xvec[row]] is the accumulator itself, and only [xvec[row+1]]
    ([next]) is still input. *)
Definition lap_row_in_place {F : Type} `{Arith F} (dim : Z) (prev next : F)
    (row : Z) : F :=
  let acc := lit_0_0 in
  let acc := if row - 1 >=? 0 then fadd acc (fmul lit_m1_0 prev) else acc in
  let acc := fadd acc (fmul lit_2_0 acc) in
  if row + 1 <? dim then fadd acc (fmul lit_m1_0 next) else acc.

(** The angle [k * pi / (dim + 1)], the vector with entries
    [sin ((r + 1) * angle)] and the number [2 - 2 * cos angle]. *)
Definition angle (dim k : Z) : R := (IZR k * PI / IZR (dim + 1))%R.

Definition sine_vector (dim k : Z) (r : Z) : R :=
  sin (IZR (r + 1) * angle dim k).

Definition laplacian_eigenvalue (dim k : Z) : R :=
  (2 - 2 * cos (angle dim k))%R.

(** ** Sample inputs *)

Definition sample_params {F : Type} `{Arith F} (dim : Z) : primme_params F :=
  {| n := dim;
     matrixMatvec := Some LaplacianMatrixMatvec_ptr;
     applyPreconditioner := Some LaplacianApplyPreconditioner_ptr;
     numEvals := 1; target := primme_smallest; locking := 0; initSize := 0;
     dynamicMethodSwitch := 0; aNorm := lit_0_0; eps := lit_1em9;
     intWork := None; correctionParams := {| precondition := 1 |};
     stats := {| numOuterIterations := 0; numRestarts := 0;
                 numMatvecs := 0; numPreconds := 0 |} |}.

(** Cell [a] holds the number [a + 1]; the status cell holds [-1]. *)
Definition ramp : state R :=
  {| doubles := fun a => IZR (a + 1); status := -1 |}.

(** The same store of binary64 values. *)
Definition ramp64 : state float :=
  {| doubles := fun a => PrimFloat.of_uint63 (Uint63.of_Z (a + 1));
     status := -1 |}.

(** The method setting of the library as far as the example shows it:
    [PRIMME_DYNAMIC] switches the dynamic selector on. *)
Definition sample_set_method {F : Type}
    (method : primme_preset_method) (p : primme_params F) : primme_params F :=
  {| n := n p; matrixMatvec := matrixMatvec p;
     applyPreconditioner := applyPreconditioner p; numEvals := numEvals p;
     target := target p; locking := locking p; initSize := initSize p;
     dynamicMethodSwitch :=
       match method with PRIMME_DYNAMIC => 1 | _ => 0 end;
     aNorm := aNorm p; eps := eps p; intWork := intWork p;
     correctionParams := correctionParams p; stats := stats p |}.

(** Defaults like those the library's [primme_initialize] writes. *)
Definition sample_defaults : primme_params float :=
  {| n := 0; matrixMatvec := None; applyPreconditioner := None;
     numEvals := 1; target := primme_smallest; locking := -1; initSize := 0;
     dynamicMethodSwitch := -1; aNorm := 0%float; eps := 0%float;
     intWork := None; correctionParams := {| precondition := -1 |};
     stats := {| numOuterIterations := 0; numRestarts := 0;
                 numMatvecs := 0; numPreconds := 0 |} |}.

(** A solve that ran out of matrix-vector products after two eigenpairs
    had converged: nonzero status, two partial results and the dynamic
    selector's recommendation [-1] left in the struct. *)
Definition exhausted_solve (p : primme_params float) : solved float :=
  {| ret := -3;
     evals := fun i => if i =? 0 then 0.25%float else 0.5%float;
     evecs := fun _ => 0%float;
     rnorms := fun _ => 0x1p-40%float;
     primme_after :=
       {| n := n p; matrixMatvec := matrixMatvec p;
          applyPreconditioner := applyPreconditioner p;
          numEvals := numEvals p; target := target p; locking := 1;
          initSize := 2; dynamicMethodSwitch := -1; aNorm := 4%float;
          eps := eps p; intWork := None;
          correctionParams := correctionParams p;
          stats := {| numOuterIterations := 50; numRestarts := 7;
                      numMatvecs := 100; numPreconds := 100 |} |} |}.

(** A solve that converged with a locking problem flagged. *)
Definition converged_solve (p : primme_params float) : solved float :=
  {| ret := 0;
     evals := fun i => if i =? 0 then 0.25%float else 0.5%float;
     evecs := fun _ => 0%float;
     rnorms := fun _ => 0x1p-40%float;
     primme_after :=
       {| n := n p; matrixMatvec := matrixMatvec p;
          applyPreconditioner := applyPreconditioner p;
          numEvals := numEvals p; target := target p; locking := 1;
          initSize := 2; dynamicMethodSwitch := -3; aNorm := 4%float;
          eps := eps p; intWork := Some (fun i => if i =? 0 then 1 else 0);
          correctionParams := correctionParams p;
          stats := {| numOuterIterations := 50; numRestarts := 7;
                      numMatvecs := 100; numPreconds := 100 |} |} |}.

(** The same solve as [converged_solve] with other eigenvectors and other
    values in the result arrays from entry 2 on. *)
Definition converged_solve_variant (p : primme_params float) : solved float :=
  {| ret := ret (converged_solve p);
     evals := fun i => if i <? 2 then evals (converged_solve p) i else 9%float;
     evecs := fun _ => 1%float;
     rnorms := fun i => if i <? 2 then rnorms (converged_solve p) i else 9%float;
     primme_after := primme_after (converged_solve p) |}.

(** The driver run on each of the two sample solves. *)
Definition exhausted_run : Z * list (event float) :=
  main "lld" sample_defaults sample_set_method exhausted_solve.

Definition converged_run : Z * list (event float) :=
  main "lld" sample_defaults sample_set_method converged_solve.

(** * Properties *)

Unset Implicit Arguments.

(** ** Loops and stores *)

Lemma store_same {F : Type} (a : Z) (v : F) (m : mem F) :
  store a v m a = v.
Proof. unfold store. now rewrite Z.eqb_refl. Qed.

Lemma store_other {F : Type} (a a' : Z) (v : F) (m : mem F) :
  a' <> a -> store a v m a' = m a'.
Proof. intros Hne. unfold store. now apply Z.eqb_neq in Hne as ->. Qed.

Lemma for_from_ext {S : Type} (body body' : Z -> S -> S) (k : nat) :
  forall i s,
    (forall j s', body j s' = body' j s') ->
    for_from k i body s = for_from k i body' s.
Proof.
  induction k as [|k IH]; intros i s Hb; simpl; [reflexivity|].
  rewrite Hb. now apply IH.
Qed.

Lemma for_from_frame {F : Type} (body : Z -> mem F -> mem F) (a : Z) (k : nat) :
  forall i m,
    (forall j m', i <= j < i + Z.of_nat k -> body j m' a = m' a) ->
    for_from k i body m a = m a.
Proof.
  induction k as [|k IH]; intros i m Hb; simpl; [reflexivity|].
  rewrite IH.
  - apply Hb. lia.
  - intros j m' Hj. apply Hb. lia.
Qed.

(** ** A block loop over any row kernel

    Both callbacks are the same two nested loops around a row kernel that
    writes [yvec[row]] only.  What the loops do is proved once. *)

Section Block.
Context {F : Type}.
Variable row_body : Z -> Z -> Z -> Z -> mem F -> mem F.
Variable row_val : Z -> (Z -> F) -> Z -> F.

Local Abbreviation column := (column row_body).
Local Abbreviation block := (block row_body).

Hypothesis row_frame :
  forall xvec yvec dim row m a,
    a <> yvec + row -> row_body xvec yvec dim row m a = m a.
Hypothesis row_value :
  forall xvec yvec dim row m,
    0 <= row < dim ->
    (forall r, 0 <= r < dim -> xvec + r <> yvec + row) ->
    row_body xvec yvec dim row m (yvec + row)
    = row_val dim (fun r => m (xvec + r)) row.
Hypothesis row_val_ext :
  forall dim f g row,
    0 <= row < dim ->
    (forall r, 0 <= r < dim -> f r = g r) ->
    row_val dim f row = row_val dim g row.

Lemma rows_frame xvec yvec dim a k :
  forall start m,
    (forall row, start <= row < start + Z.of_nat k -> a <> yvec + row) ->
    for_from k start (row_body xvec yvec dim) m a = m a.
Proof.
  intros start m Ha. apply for_from_frame.
  intros j m' Hj. apply row_frame. now apply Ha.
Qed.

Lemma rows_value xvec yvec dim k :
  forall start m row,
    0 <= start -> start + Z.of_nat k <= dim ->
    (forall r r', 0 <= r < dim -> 0 <= r' < dim -> xvec + r <> yvec + r') ->
    start <= row < start + Z.of_nat k ->
    for_from k start (row_body xvec yvec dim) m (yvec + row)
    = row_val dim (fun r => m (xvec + r)) row.
Proof.
  induction k as [|k IH]; intros start m row H0 Hk Hsep Hrow; [lia|].
  cbn [for_from].
  destruct (Z.eq_dec row start) as [->|Hne].
  - rewrite rows_frame by (intros; lia).
    apply row_value; [lia|]. intros r Hr. apply Hsep; lia.
  - rewrite IH by (auto; lia).
    apply row_val_ext; [lia|].
    intros r Hr. apply row_frame. apply Hsep; lia.
Qed.

Lemma column_frame xvec yvec dim m a :
  (forall row, 0 <= row < dim -> a <> yvec + row) ->
  column xvec yvec dim m a = m a.
Proof.
  intros Ha. unfold column, for_upto. apply rows_frame.
  intros row Hrow. apply Ha. lia.
Qed.

Lemma column_value xvec yvec dim m row :
  (forall r r', 0 <= r < dim -> 0 <= r' < dim -> xvec + r <> yvec + r') ->
  0 <= row < dim ->
  column xvec yvec dim m (yvec + row)
  = row_val dim (fun r => m (xvec + r)) row.
Proof.
  intros Hsep Hrow. unfold column, for_upto.
  apply rows_value; auto; lia.
Qed.

Lemma cols_frame x ldx y ldy dim a k :
  forall start m,
    (forall i row, start <= i < start + Z.of_nat k -> 0 <= row < dim ->
                   a <> y + ldy * i + row) ->
    for_from k start
      (fun i m => column (x + ldx * i) (y + ldy * i) dim m) m a = m a.
Proof.
  intros start m Ha. apply for_from_frame.
  intros j m' Hj. apply column_frame. intros row Hrow. now apply Ha.
Qed.

Lemma cols_value x ldx y ldy dim b k :
  forall start m i row,
    0 <= start -> start + Z.of_nat k <= b ->
    dim <= ldy ->
    separate x ldx y ldy b dim ->
    start <= i < start + Z.of_nat k -> 0 <= row < dim ->
    for_from k start
      (fun i m => column (x + ldx * i) (y + ldy * i) dim m) m
      (y + ldy * i + row)
    = row_val dim (fun r => m (x + ldx * i + r)) row.
Proof.
  induction k as [|k IH]; intros start m i row H0 Hk Hld Hsep Hi Hrow; [lia|].
  cbn [for_from].
  destruct (Z.eq_dec i start) as [->|Hne].
  - rewrite cols_frame by (intros; nia).
    apply column_value; [|lia].
    intros r r' Hr Hr'. apply Hsep; lia.
  - rewrite IH by (auto; lia).
    apply row_val_ext; [lia|].
    intros r Hr. apply column_frame.
    intros row' Hrow'. apply Hsep; lia.
Qed.

(** Cells outside the output block keep their value. *)
Lemma block_frame x ldx y ldy b dim m a :
  ~ in_block y ldy b dim a ->
  block x ldx y ldy b dim m a = m a.
Proof.
  intros Ha. unfold block, for_upto. apply cols_frame.
  intros i row Hi Hrow ->. apply Ha. exists i, row. repeat split; lia.
Qed.

(** Cell [row] of output column [i] holds the kernel's value for input
    column [i] as it was before the call. *)
Lemma block_value x ldx y ldy b dim m i row :
  dim <= ldy ->
  separate x ldx y ldy b dim ->
  0 <= i < b -> 0 <= row < dim ->
  block x ldx y ldy b dim m (y + ldy * i + row)
  = row_val dim (fun r => m (x + ldx * i + r)) row.
Proof.
  intros Hld Hsep Hi Hrow. unfold block, for_upto.
  apply cols_value with (b := b); auto; lia.
Qed.
End Block.

(** ** The two row kernels *)

Section Kernels.
Context {F : Type} `{Arith F}.

Lemma matvec_is_block x ldx y ldy b (primme : primme_params F) s :
  doubles (LaplacianMatrixMatvec x ldx y ldy b primme s)
  = block matvec_row x ldx y ldy b (n primme) (doubles s).
Proof. reflexivity. Qed.

Lemma precond_is_block x ldx y ldy b (primme : primme_params F) s :
  doubles (LaplacianApplyPreconditioner x ldx y ldy b primme s)
  = block precond_row x ldx y ldy b (n primme) (doubles s).
Proof. reflexivity. Qed.

Lemma matvec_row_frame xvec yvec dim row (m : mem F) a :
  a <> yvec + row -> matvec_row xvec yvec dim row m a = m a.
Proof.
  intros Ha. unfold matvec_row.
  destruct (row - 1 >=? 0), (row + 1 <? dim);
    now rewrite ?(fun v m' => store_other (yvec + row) a v m' Ha).
Qed.

Lemma matvec_row_value xvec yvec dim row (m : mem F) :
  0 <= row < dim ->
  (forall r, 0 <= r < dim -> xvec + r <> yvec + row) ->
  matvec_row xvec yvec dim row m (yvec + row)
  = lap_row dim (fun r => m (xvec + r)) row.
Proof.
  intros Hrow Hsep. unfold matvec_row, lap_row, load.
  assert (Hx : xvec + row <> yvec + row) by (apply Hsep; lia).
  destruct (row - 1 >=? 0) eqn:Hlo, (row + 1 <? dim) eqn:Hhi;
    repeat match goal with
    | |- context [store ?a _ _ ?a] => rewrite store_same
    | |- context [store (yvec + row) _ _ (xvec + ?r)] =>
        rewrite (store_other (yvec + row) (xvec + r)) by (apply Hsep; lia)
    end; reflexivity.
Qed.

Lemma lap_row_ext dim (f g : Z -> F) row :
  0 <= row < dim ->
  (forall r, 0 <= r < dim -> f r = g r) ->
  lap_row dim f row = lap_row dim g row.
Proof.
  intros Hrow Hfg. unfold lap_row.
  destruct (row - 1 >=? 0) eqn:Hlo, (row + 1 <? dim) eqn:Hhi;
    rewrite ?(Hfg row), ?(Hfg (row - 1)), ?(Hfg (row + 1)) by lia;
    reflexivity.
Qed.

Lemma precond_row_frame xvec yvec dim row (m : mem F) a :
  a <> yvec + row -> precond_row xvec yvec dim row m a = m a.
Proof. intros Ha. unfold precond_row. now rewrite store_other. Qed.

Lemma precond_row_value xvec yvec dim row (m : mem F) :
  0 <= row < dim ->
  (forall r, 0 <= r < dim -> xvec + r <> yvec + row) ->
  precond_row xvec yvec dim row m (yvec + row)
  = half_row dim (fun r => m (xvec + r)) row.
Proof. intros _ _. unfold precond_row. now rewrite store_same. Qed.

Lemma half_row_ext dim (f g : Z -> F) row :
  0 <= row < dim ->
  (forall r, 0 <= r < dim -> f r = g r) ->
  half_row dim f row = half_row dim g row.
Proof. intros Hrow Hfg. unfold half_row. now rewrite Hfg. Qed.

(** What [LaplacianMatrixMatvec] leaves in cell [row] of output column [i]. *)
Lemma matvec_cell x ldx y ldy b (primme : primme_params F) s i row :
  n primme <= ldy ->
  separate x ldx y ldy b (n primme) ->
  0 <= i < b -> 0 <= row < n primme ->
  doubles (LaplacianMatrixMatvec x ldx y ldy b primme s) (y + ldy * i + row)
  = lap_row (n primme) (fun r => doubles s (x + ldx * i + r)) row.
Proof.
  intros. rewrite matvec_is_block.
  apply (@block_value F matvec_row lap_row); auto.
  - apply matvec_row_frame.
  - apply matvec_row_value.
  - apply lap_row_ext.
Qed.

(** What [LaplacianApplyPreconditioner] leaves there. *)
Lemma precond_cell x ldx y ldy b (primme : primme_params F) s i row :
  n primme <= ldy ->
  separate x ldx y ldy b (n primme) ->
  0 <= i < b -> 0 <= row < n primme ->
  doubles (LaplacianApplyPreconditioner x ldx y ldy b primme s)
    (y + ldy * i + row)
  = fdiv (doubles s (x + ldx * i + row)) lit_2_0.
Proof.
  intros. rewrite precond_is_block.
  apply (@block_value F precond_row half_row); auto.
  - apply precond_row_frame.
  - apply precond_row_value.
  - apply half_row_ext.
Qed.

Lemma matvec_outside x ldx y ldy b (primme : primme_params F) s a :
  ~ in_block y ldy b (n primme) a ->
  doubles (LaplacianMatrixMatvec x ldx y ldy b primme s) a = doubles s a.
Proof.
  intros. rewrite matvec_is_block.
  apply block_frame; auto. apply matvec_row_frame.
Qed.

Lemma precond_outside x ldx y ldy b (primme : primme_params F) s a :
  ~ in_block y ldy b (n primme) a ->
  doubles (LaplacianApplyPreconditioner x ldx y ldy b primme s) a
  = doubles s a.
Proof.
  intros. rewrite precond_is_block.
  apply block_frame; auto. apply precond_row_frame.
Qed.
End Kernels.

(** ** Exact arithmetic *)

Ltac zcases :=
  repeat match goal with
  | |- context [(?a >=? ?b)%Z] => rewrite (Z.geb_leb a b)
  | |- context [(?a =? ?b)%Z] => destruct (Z.eqb_spec a b)
  | |- context [(?a <=? ?b)%Z] => destruct (Z.leb_spec a b)
  | |- context [(?a <? ?b)%Z] => destruct (Z.ltb_spec a b)
  end; cbn [andb orb negb].

Section Exact.
Local Open Scope R_scope.

Lemma lap_row_exact dim (v : Z -> R) row :
  (0 <= row < dim)%Z ->
  lap_row dim v row
  = - ext0 dim v (row - 1) + 2 * v row - ext0 dim v (row + 1).
Proof.
  intros Hrow. unfold lap_row, ext0. cbn [lit_0_0 lit_m1_0 lit_2_0 fadd fmul R_Arith].
  zcases; try lia; lra.
Qed.

Lemma sum_upto_ext k (f g : Z -> R) :
  (forall r, (0 <= r < Z.of_nat k)%Z -> f r = g r) ->
  sum_upto k f = sum_upto k g.
Proof.
  induction k as [|k IH]; intros Hfg; [reflexivity|].
  cbn [sum_upto]. rewrite IH, (Hfg (Z.of_nat k)) by (intros; try apply Hfg; lia).
  reflexivity.
Qed.

(** A row of the tridiagonal matrix has at most three nonzero entries. *)
Lemma sum_tridiag (v : Z -> R) row k :
  sum_upto k (fun j => tridiag row j * v j)
  = (if ((0 <=? row - 1) && (row - 1 <? Z.of_nat k))%Z then - v (row - 1)%Z else 0)
    + (if ((0 <=? row) && (row <? Z.of_nat k))%Z then 2 * v row else 0)
    + (if ((0 <=? row + 1) && (row + 1 <? Z.of_nat k))%Z then - v (row + 1)%Z else 0).
Proof.
  induction k as [|k IH].
  - cbn [sum_upto]. zcases; try lia; lra.
  - cbn [sum_upto]. rewrite IH. unfold tridiag.
    zcases; try lia; subst; try lra;
      repeat match goal with
      | |- context [v ?a] =>
          lazymatch a with
          | Z.of_nat k => fail
          | _ => replace a with (Z.of_nat k) by lia
          end
      end; lra.
Qed.

Lemma mat_vec_tridiag dim (v : Z -> R) row :
  (0 <= row < dim)%Z ->
  mat_vec dim tridiag v row
  = - ext0 dim v (row - 1) + 2 * v row - ext0 dim v (row + 1).
Proof.
  intros Hrow. unfold mat_vec. rewrite sum_tridiag.
  rewrite Z2Nat.id by lia. unfold ext0.
  zcases; try lia; lra.
Qed.
Lemma sym_telescope (e f : Z -> R) k :
  sum_upto k (fun r => (- e (r - 1)%Z + 2 * e r - e (r + 1)%Z) * f r)
  - sum_upto k (fun r => e r * (- f (r - 1)%Z + 2 * f r - f (r + 1)%Z))
  = (e (Z.of_nat k - 1)%Z * f (Z.of_nat k) - e (Z.of_nat k) * f (Z.of_nat k - 1)%Z)
    - (e (-1)%Z * f 0%Z - e 0%Z * f (-1)%Z).
Proof.
  induction k as [|k IH].
  - cbn. lra.
  - cbn [sum_upto].
    replace (Z.of_nat (Datatypes.S k)) with (Z.of_nat k + 1)%Z by lia.
    replace (Z.of_nat k + 1 - 1)%Z with (Z.of_nat k) by lia.
    lra.
Qed.

Lemma quad_telescope (e : Z -> R) k :
  sum_upto k (fun r => e r * (- e (r - 1)%Z + 2 * e r - e (r + 1)%Z))
  = sum_upto (Datatypes.S k) (fun r => (e r - e (r - 1)%Z) * (e r - e (r - 1)%Z))
    - e (Z.of_nat k) * e (Z.of_nat k)
    + e (Z.of_nat k) * e (Z.of_nat k - 1)%Z
    - e (-1)%Z * e (-1)%Z + e (-1)%Z * e 0%Z.
Proof.
  induction k as [|k IH].
  - cbn. lra.
  - cbn [sum_upto] in *. rewrite IH.
    replace (Z.of_nat (Datatypes.S k)) with (Z.of_nat k + 1)%Z by lia.
    replace (Z.of_nat k + 1 - 1)%Z with (Z.of_nat k) by lia.
    lra.
Qed.

Lemma sum_upto_nonneg k (f : Z -> R) :
  (forall r, 0 <= f r) -> 0 <= sum_upto k f.
Proof.
  intros Hf. induction k as [|k IH]; cbn [sum_upto]; [lra|].
  specialize (Hf (Z.of_nat k)). lra.
Qed.

Lemma sum_upto_zero k (f : Z -> R) :
  (forall r, 0 <= f r) -> sum_upto k f = 0 ->
  forall r, (0 <= r < Z.of_nat k)%Z -> f r = 0.
Proof.
  intros Hf. induction k as [|k IH]; cbn [sum_upto]; intros Hs r Hr; [lia|].
  pose proof (sum_upto_nonneg k f Hf) as Hk.
  pose proof (Hf (Z.of_nat k)) as Hl.
  destruct (Z.eq_dec r (Z.of_nat k)) as [->|Hne]; [lra|].
  apply IH; [lra|lia].
Qed.

Lemma chain_zero (e : Z -> R) k :
  e (-1)%Z = 0 ->
  (forall r, (0 <= r < Z.of_nat k)%Z -> e r = e (r - 1)%Z) ->
  forall r, (-1 <= r < Z.of_nat k)%Z -> e r = 0.
Proof.
  intros H0. induction k as [|k IH]; intros Hstep r Hr.
  - now replace r with (-1)%Z by lia.
  - destruct (Z.eq_dec r (Z.of_nat k)) as [->|Hne].
    + rewrite Hstep by lia. apply IH; [|lia].
      intros r' Hr'. apply Hstep. lia.
    + apply IH; [|lia]. intros r' Hr'. apply Hstep. lia.
Qed.

Lemma apply_operator_row (primme : primme_params R) (v : Z -> R) row :
  (0 <= row < n primme)%Z ->
  apply_operator primme v row
  = - ext0 (n primme) v (row - 1) + 2 * v row - ext0 (n primme) v (row + 1).
Proof.
  intros Hrow. unfold apply_operator.
  replace (n primme + row)%Z with (n primme + n primme * 0 + row)%Z by lia.
  rewrite matvec_cell; try lia.
  - cbn [doubles]. rewrite <- lap_row_exact by lia.
    apply lap_row_ext; [lia|]. intros r _. f_equal. lia.
  - intros i r j r' Hi Hr Hj Hr'.
    replace i with 0%Z by lia. replace j with 0%Z by lia. lia.
Qed.

Lemma ext0_inside dim (v : Z -> R) r :
  (0 <= r < dim)%Z -> ext0 dim v r = v r.
Proof. intros Hr. unfold ext0. zcases; try lia; reflexivity. Qed.

Lemma ext0_outside dim (v : Z -> R) r :
  (r < 0 \/ dim <= r)%Z -> ext0 dim v r = 0.
Proof. intros Hr. unfold ext0. zcases; try lia; reflexivity. Qed.

(** Inner products with the operator's output, over the zero-continued
    vectors. *)
Lemma dot_apply_l (primme : primme_params R) (u v : Z -> R) :
  dot (n primme) (apply_operator primme u) v
  = sum_upto (Z.to_nat (n primme))
      (fun r => (- ext0 (n primme) u (r - 1)%Z + 2 * ext0 (n primme) u r - ext0 (n primme) u (r + 1)%Z) * ext0 (n primme) v r).
Proof.
  unfold dot. apply sum_upto_ext. intros r Hr.
  rewrite apply_operator_row by lia.
  rewrite (ext0_inside (n primme) u r), (ext0_inside (n primme) v r) by lia.
  reflexivity.
Qed.

Lemma dot_apply_r (primme : primme_params R) (u v : Z -> R) :
  dot (n primme) u (apply_operator primme v)
  = sum_upto (Z.to_nat (n primme))
      (fun r => ext0 (n primme) u r * (- ext0 (n primme) v (r - 1)%Z + 2 * ext0 (n primme) v r - ext0 (n primme) v (r + 1)%Z)).
Proof.
  unfold dot. apply sum_upto_ext. intros r Hr.
  rewrite apply_operator_row by lia.
  rewrite (ext0_inside (n primme) u r), (ext0_inside (n primme) v r) by lia.
  reflexivity.
Qed.

End Exact.

(** ** The callbacks *)

(** C1. Cell [row] of output column [i] of [LaplacianMatrixMatvec] is
    [-X[row-1] + 2*X[row] - X[row+1]] with the terms outside [0 .. n-1] left
    out ([Y[0] = 2*X[0] - X[1]] and [Y[n-1] = -X[n-2] + 2*X[n-1]]), for every
    block width and every column; the input and the output block are dense
    blocks of [b] columns of length [n] that share no cell.
    - In any arithmetic, binary64 included, the cell holds this sum as the
      code forms it, from [0.0] and with the factors [-1.0] and [2.0], the
      terms added from left to right.
    - In exact arithmetic it is the value of the formula, which is row
      [row] of the product of the tridiagonal 2/-1 matrix with input column
      [i]. *)
Theorem matvec_is_tridiagonal_product :
  (forall (F : Type) (A : Arith F) x ldx y ldy b
          (primme : primme_params F) (s : state F) i row,
      let dim := n primme in
      let X := fun r => doubles s (x + ldx * i + r) in
      let Y := fun r =>
        doubles (LaplacianMatrixMatvec x ldx y ldy b primme s)
          (y + ldy * i + r) in
      dim <= ldy ->
      separate x ldx y ldy b dim ->
      0 <= i < b -> 0 <= row < dim ->
      Y row = lap_row dim X row
      /\ (0 < row < dim - 1 ->
          Y row
          = fadd (fadd (fadd lit_0_0 (fmul lit_m1_0 (X (row - 1))))
                       (fmul lit_2_0 (X row)))
                 (fmul lit_m1_0 (X (row + 1))))
      /\ (row = 0 -> 1 < dim ->
          Y 0 = fadd (fadd lit_0_0 (fmul lit_2_0 (X 0)))
                     (fmul lit_m1_0 (X 1)))
      /\ (row = dim - 1 -> 1 < dim ->
          Y (dim - 1)
          = fadd (fadd lit_0_0 (fmul lit_m1_0 (X (dim - 2))))
                 (fmul lit_2_0 (X (dim - 1))))
      /\ (row = 0 -> dim = 1 -> Y 0 = fadd lit_0_0 (fmul lit_2_0 (X 0))))
  /\ (forall x ldx y ldy b (primme : primme_params R) (s : state R) i row,
        let dim := n primme in
        let X := fun r => doubles s (x + ldx * i + r) in
        let Y := fun r =>
          doubles (LaplacianMatrixMatvec x ldx y ldy b primme s)
            (y + ldy * i + r) in
        dim <= ldy ->
        separate x ldx y ldy b dim ->
        0 <= i < b -> 0 <= row < dim ->
        (Y row = - ext0 dim X (row - 1) + 2 * X row - ext0 dim X (row + 1))%R
        /\ (0 < row < dim - 1 ->
            (Y row = - X (row - 1)%Z + 2 * X row - X (row + 1)%Z)%R)
        /\ (row = 0 -> 1 < dim -> (Y 0%Z = 2 * X 0%Z - X 1%Z)%R)
        /\ (row = dim - 1 -> 1 < dim ->
            (Y (dim - 1)%Z = - X (dim - 2)%Z + 2 * X (dim - 1)%Z)%R)
        /\ Y row = mat_vec dim tridiag X row).
Proof.
  split.
  - intros F A x ldx y ldy b primme s i row dim X Y Hld Hsep Hi Hrow.
    assert (HY : forall r, 0 <= r < dim -> Y r = lap_row dim X r).
    { intros r Hr. subst Y. cbv beta. now rewrite matvec_cell. }
    split; [now apply HY|]. split; [|split; [|split]].
    + intros Hin. rewrite HY by lia. unfold lap_row.
      zcases; try lia. reflexivity.
    + intros -> Hdim. rewrite HY by lia. unfold lap_row.
      zcases; try lia. reflexivity.
    + intros -> Hdim. rewrite HY by lia. unfold lap_row.
      zcases; try lia.
      replace (dim - 1 - 1) with (dim - 2) by lia. reflexivity.
    + intros -> Hdim. rewrite HY by lia. unfold lap_row.
      zcases; try lia. reflexivity.
  - intros x ldx y ldy b primme s i row dim X Y Hld Hsep Hi Hrow.
    assert (HY : (Y row
                  = - ext0 dim X (row - 1) + 2 * X row
                    - ext0 dim X (row + 1))%R).
    { subst Y. cbv beta. rewrite matvec_cell by assumption.
      now apply lap_row_exact. }
    split; [exact HY|].
    split.
    { intros Hin. rewrite HY. rewrite !ext0_inside by lia. reflexivity. }
    split.
    { intros -> Hdim. rewrite HY.
      rewrite ext0_outside by lia. rewrite ext0_inside by lia.
      cbn [Z.add]. lra. }
    split.
    { intros -> Hdim. rewrite HY.
      rewrite ext0_inside by lia. rewrite ext0_outside by lia.
      replace (dim - 1 - 1) with (dim - 2) by lia. lra. }
    rewrite HY. symmetry. now apply mat_vec_tridiag.
Qed.

Lemma matvec_is_tridiagonal_product_witness :
  separate 0 3 6 3 2 3
  /\ (doubles (LaplacianMatrixMatvec 0 3 6 3 2 (sample_params 3) ramp64)
        (6 + 3 * 1 + 1)
      = lap_row 3 (fun r => doubles ramp64 (0 + 3 * 1 + r)) 1)
  /\ (doubles (LaplacianMatrixMatvec 0 3 6 3 2 (sample_params 3) ramp)
        (6 + 3 * 1 + 1)
      = mat_vec 3 tridiag (fun r => doubles ramp (0 + 3 * 1 + r)) 1).
Proof.
  assert (Hsep : separate 0 3 6 3 2 3) by (intros i r j r' Hi Hr Hj Hr'; lia).
  split; [exact Hsep|]. split.
  - exact (proj1 (proj1 matvec_is_tridiagonal_product float float_Arith
                    0 3 6 3 2 (sample_params 3) ramp64 1 1
                    ltac:(cbn; lia) Hsep ltac:(lia) ltac:(cbn; lia))).
  - exact (proj2 (proj2 (proj2 (proj2
             (proj2 matvec_is_tridiagonal_product
                0 3 6 3 2 (sample_params 3) ramp 1 1
                ltac:(cbn; lia) Hsep ltac:(lia) ltac:(cbn; lia)))))).
Defined.

Lemma for_from_doubles {F : Type}
    (g : Z -> state F -> state F) (h : Z -> mem F -> mem F) (k : nat) :
  forall i s,
    (forall j s', doubles (g j s') = h j (doubles s')) ->
    doubles (for_from k i g s) = for_from k i h (doubles s).
Proof.
  induction k as [|k IH]; intros i s Hgh; cbn [for_from]; [reflexivity|].
  rewrite IH by assumption. now rewrite Hgh.
Qed.

Lemma block_one_at_a_time {F : Type}
    (row_body : Z -> Z -> Z -> Z -> mem F -> mem F)
    (f : Z -> Z -> Z -> Z -> Z -> primme_params F -> state F -> state F) :
  (forall x ldx y ldy b primme s,
      doubles (f x ldx y ldy b primme s)
      = block row_body x ldx y ldy b (n primme) (doubles s)) ->
  forall x ldx y ldy b primme s,
    doubles (f x ldx y ldy b primme s)
    = doubles (one_at_a_time f x ldx y ldy b primme s).
Proof.
  intros Hf x ldx y ldy b primme s.
  rewrite Hf. unfold one_at_a_time, block at 1, for_upto.
  symmetry.
  rewrite for_from_doubles
    with (h := fun i m =>
                 block row_body (x + ldx * i) ldx (y + ldy * i) ldy 1
                   (n primme) m)
    by (intros; apply Hf).
  apply for_from_ext. intros j m.
  unfold block, for_upto.
  change (Z.to_nat 1) with 1%nat. cbn [for_from].
  f_equal; lia.
Qed.

(** C2. One call with block width [b] leaves exactly the store that [b]
    calls with block width 1 leave, one per vector with the same leading
    dimensions, and this for [LaplacianMatrixMatvec] and for
    [LaplacianApplyPreconditioner], in any arithmetic (binary64 included):
    every cell has the very same value. *)
Theorem block_width_independent :
  forall (F : Type) (A : Arith F) x ldx y ldy b
         (primme : primme_params F) (s : state F),
    doubles (LaplacianMatrixMatvec x ldx y ldy b primme s)
    = doubles (one_at_a_time LaplacianMatrixMatvec x ldx y ldy b primme s)
    /\ doubles (LaplacianApplyPreconditioner x ldx y ldy b primme s)
       = doubles
           (one_at_a_time LaplacianApplyPreconditioner x ldx y ldy b primme s).
Proof.
  intros F A x ldx y ldy b primme s. split.
  - apply (block_one_at_a_time matvec_row). intros. apply matvec_is_block.
  - apply (block_one_at_a_time precond_row). intros. apply precond_is_block.
Qed.

(** C3. In exact arithmetic the operator of [LaplacianMatrixMatvec] is
    symmetric, [<A u, v> = <u, A v>], and positive definite,
    [0 < <u, A u>] for every [u] with a nonzero entry. *)
Theorem operator_symmetric_positive_definite :
  forall (primme : primme_params R),
    (forall u v,
        dot (n primme) (apply_operator primme u) v
        = dot (n primme) u (apply_operator primme v))
    /\ (forall u,
          (exists r, 0 <= r < n primme /\ u r <> 0%R) ->
          (0 < dot (n primme) u (apply_operator primme u))%R).
Proof.
  intros primme. split.
  - intros u v.
    rewrite dot_apply_l, dot_apply_r. set (dim := n primme).
    pose proof (sym_telescope (ext0 dim u) (ext0 dim v) (Z.to_nat dim)) as Ht.
    rewrite (ext0_outside dim u (Z.of_nat (Z.to_nat dim))) in Ht by lia.
    rewrite (ext0_outside dim v (Z.of_nat (Z.to_nat dim))) in Ht by lia.
    rewrite (ext0_outside dim u (-1)) in Ht by lia.
    rewrite (ext0_outside dim v (-1)) in Ht by lia.
    lra.
  - intros u (r0 & Hr0 & Hu).
    rewrite dot_apply_r. set (dim := n primme) in *.
    rewrite (quad_telescope (ext0 dim u)).
    rewrite (ext0_outside dim u (Z.of_nat (Z.to_nat dim))) by lia.
    rewrite (ext0_outside dim u (-1)) by lia.
    set (D := fun r : Z =>
                ((ext0 dim u r - ext0 dim u (r - 1))
                 * (ext0 dim u r - ext0 dim u (r - 1)))%R).
    assert (HD : forall r, (0 <= D r)%R) by (intros r; unfold D; apply Rle_0_sqr).
    pose proof (sum_upto_nonneg (S (Z.to_nat dim)) D HD) as Hnn.
    assert (Hne : sum_upto (S (Z.to_nat dim)) D <> 0%R).
    { intros Hz. apply Hu.
      rewrite <- (ext0_inside dim u r0) by lia.
      apply (chain_zero (ext0 dim u) (S (Z.to_nat dim))); [| |lia].
      - apply ext0_outside. lia.
      - intros r Hr.
        pose proof (sum_upto_zero _ D HD Hz r Hr) as Hsq. unfold D in Hsq.
        nra. }
    fold D. lra.
Qed.

Lemma operator_symmetric_positive_definite_witness :
  (0 < dot 3 (fun r => IZR (r + 1))
         (apply_operator (sample_params 3) (fun r => IZR (r + 1))))%R.
Proof.
  apply (proj2 (operator_symmetric_positive_definite (sample_params 3))).
  exists 0. split; [cbn; lia|]. cbn. lra.
Defined.

Lemma padding_not_in_block y ld b dim i row :
  dim <= ld -> 0 <= i < b -> dim <= row < ld ->
  ~ in_block y ld b dim (y + ld * i + row).
Proof.
  intros Hld Hi Hrow (j & r & Hj & Hr & Heq).
  destruct (Z.lt_trichotomy i j) as [Hlt|[->|Hgt]]; nia.
Qed.

Lemma later_column_not_in_block y ld b dim i row :
  dim <= ld -> b <= i -> 0 <= row < ld ->
  ~ in_block y ld b dim (y + ld * i + row).
Proof.
  intros Hld Hi Hrow (j & r & Hj & Hr & Heq). nia.
Qed.

Lemma input_not_in_block x ldx y ldy b dim i r :
  separate x ldx y ldy b dim -> 0 <= i < b -> 0 <= r < dim ->
  ~ in_block y ldy b dim (x + ldx * i + r).
Proof.
  intros Hsep Hi Hr (j & r' & Hj & Hr' & Heq).
  now apply (Hsep i r j r').
Qed.

(** C7. Both callbacks write only the cells [y[ldy*i + row]], [0 <= i < b],
    [0 <= row < n]: every other cell of the store keeps its value, so the
    input block [x], a block that shares no cell with the output block, is
    unchanged, and with [ldy >= n] so are the rows [n .. ldy-1] of each
    output column and the columns from [b] on. *)
Theorem callbacks_write_only_output :
  forall (F : Type) (A : Arith F)
         (f : Z -> Z -> Z -> Z -> Z -> primme_params F -> state F -> state F),
    f = LaplacianMatrixMatvec \/ f = LaplacianApplyPreconditioner ->
    forall x ldx y ldy b (primme : primme_params F) (s : state F),
      let dim := n primme in
      let s' := f x ldx y ldy b primme s in
      (forall a, ~ in_block y ldy b dim a -> doubles s' a = doubles s a)
      /\ (separate x ldx y ldy b dim ->
          forall i r, 0 <= i < b -> 0 <= r < dim ->
            doubles s' (x + ldx * i + r) = doubles s (x + ldx * i + r))
      /\ (dim <= ldy ->
          forall i row, 0 <= i < b -> dim <= row < ldy ->
            doubles s' (y + ldy * i + row) = doubles s (y + ldy * i + row))
      /\ (dim <= ldy ->
          forall i row, b <= i -> 0 <= row < ldy ->
            doubles s' (y + ldy * i + row) = doubles s (y + ldy * i + row)).
Proof.
  intros F A f Hf x ldx y ldy b primme s dim s'.
  assert (Hout : forall a,
             ~ in_block y ldy b dim a -> doubles s' a = doubles s a).
  { intros a Ha. subst s'.
    destruct Hf as [-> | ->];
      [now apply matvec_outside | now apply precond_outside]. }
  split; [exact Hout|]. split; [|split].
  - intros Hsep i r Hi Hr. apply Hout. now apply input_not_in_block.
  - intros Hld i row Hi Hrow. apply Hout. now apply padding_not_in_block.
  - intros Hld i row Hi Hrow. apply Hout. now apply later_column_not_in_block.
Qed.

Lemma callbacks_write_only_output_witness :
  separate 0 3 6 4 2 3
  /\ doubles (LaplacianMatrixMatvec 0 3 6 4 2 (sample_params 3) ramp) (0 + 3 * 1 + 2)
     = doubles ramp (0 + 3 * 1 + 2)
  /\ doubles (LaplacianApplyPreconditioner 0 3 6 4 2 (sample_params 3) ramp)
       (6 + 4 * 1 + 3)
     = doubles ramp (6 + 4 * 1 + 3).
Proof.
  assert (Hsep : separate 0 3 6 4 2 3) by (intros i r j r' Hi Hr Hj Hr'; lia).
  split; [exact Hsep|]. split.
  - apply (proj1 (proj2
             (callbacks_write_only_output R R_Arith LaplacianMatrixMatvec
                (or_introl eq_refl) 0 3 6 4 2 (sample_params 3) ramp)));
      [exact Hsep | lia | cbn; lia].
  - apply (proj1 (proj2 (proj2
             (callbacks_write_only_output R R_Arith LaplacianApplyPreconditioner
                (or_intror eq_refl) 0 3 6 4 2 (sample_params 3) ramp))));
      [cbn; lia | lia | cbn; lia].
Defined.

(** C8. Whatever the block width, the input and the previous content of the
    status cell, both callbacks leave 0 in it, never another value. *)
Theorem callbacks_report_success :
  forall (F : Type) (A : Arith F) x ldx y ldy b
         (primme : primme_params F) (s : state F),
    status (LaplacianMatrixMatvec x ldx y ldy b primme s) = 0
    /\ status (LaplacianApplyPreconditioner x ldx y ldy b primme s) = 0.
Proof. intros. split; reflexivity. Qed.

(** C10. Cell [row] of output column [i] of [LaplacianApplyPreconditioner]
    is [X[row] / 2], in any arithmetic; in exact arithmetic this is the
    inverse of the diagonal matrix with 2 on the diagonal, [2 * Y[row] =
    X[row]], and it is not the identity: [Y[row]] differs from [X[row]]
    wherever [X[row]] is not zero. *)
Theorem preconditioner_halves :
  (forall (F : Type) (A : Arith F) x ldx y ldy b
          (primme : primme_params F) (s : state F) i row,
      n primme <= ldy ->
      separate x ldx y ldy b (n primme) ->
      0 <= i < b -> 0 <= row < n primme ->
      doubles (LaplacianApplyPreconditioner x ldx y ldy b primme s)
        (y + ldy * i + row)
      = fdiv (doubles s (x + ldx * i + row)) lit_2_0)
  /\ (forall x ldx y ldy b (primme : primme_params R) (s : state R) i row,
        let X := doubles s (x + ldx * i + row) in
        let Y := doubles (LaplacianApplyPreconditioner x ldx y ldy b primme s)
                   (y + ldy * i + row) in
        n primme <= ldy ->
        separate x ldx y ldy b (n primme) ->
        0 <= i < b -> 0 <= row < n primme ->
        Y = (X / 2)%R /\ (2 * Y = X)%R /\ (X <> 0%R -> Y <> X)).
Proof.
  split.
  - intros. now apply precond_cell.
  - intros x ldx y ldy b primme s i row X Y Hld Hsep Hi Hrow.
    assert (HY : Y = (X / 2)%R).
    { subst X Y. now rewrite precond_cell. }
    split; [exact HY|]. split; [lra|]. intros HX. lra.
Qed.

Lemma preconditioner_halves_witness :
  separate 0 3 6 3 2 3
  /\ doubles (LaplacianApplyPreconditioner 0 3 6 3 2 (sample_params 3) ramp)
       (6 + 3 * 1 + 2)
     <> doubles ramp (0 + 3 * 1 + 2).
Proof.
  assert (Hsep : separate 0 3 6 3 2 3) by (intros i r j r' Hi Hr Hj Hr'; lia).
  split; [exact Hsep|].
  apply (proj2 preconditioner_halves 0 3 6 3 2 (sample_params 3) ramp 1 2);
    [cbn; lia | exact Hsep | lia | cbn; lia |].
  cbn. lra.
Defined.

(** ** The driver *)

Section DriverFacts.
Context {F : Type} `{Arith F}.

Lemma for_from_emit (g : Z -> event F) (k : nat) :
  forall i out,
    for_from k i (fun j out => emit (g j) out) out
    = out ++ lines_from k i g.
Proof.
  induction k as [|k IH]; intros i out; cbn [for_from lines_from].
  - now rewrite app_nil_r.
  - rewrite IH. unfold emit. now rewrite <- app_assoc.
Qed.

Lemma lines_from_In (g : Z -> event F) (e : event F) (k : nat) :
  forall i,
    In e (lines_from k i g)
    <-> exists j, i <= j < i + Z.of_nat k /\ e = g j.
Proof.
  induction k as [|k IH]; intros i; cbn [lines_from In].
  - split; [tauto|]. intros (j & Hj & _). lia.
  - rewrite IH. split.
    + intros [<-|(j & Hj & ->)].
      * exists i. split; [lia|reflexivity].
      * exists j. split; [lia|reflexivity].
    + intros (j & Hj & ->).
      destruct (Z.eq_dec j i) as [->|Hne]; [now left|].
      right. exists j. split; [lia|reflexivity].
Qed.

Lemma switch_is_recommendation (v : Z) (out : list (event F)) :
  match v with
  | -1 => emit (fprintf fmt_min_matvecs []) out
  | -2 => emit (fprintf fmt_min_time []) out
  | -3 => emit (fprintf fmt_close_call []) out
  | _ => out
  end = out ++ recommendation v.
Proof.
  unfold recommendation, emit.
  destruct v as [|q|q]; cbn; try now rewrite app_nil_r.
  destruct q as [[q|q|]|[q|q|]|]; cbn; now rewrite ?app_nil_r.
Qed.

Lemma locking_test (p : primme_params F) :
  negb (locking p =? 0)
  && match intWork p with Some w => w 0 =? 1 | None => false end = true
  <-> locking_problem p.
Proof.
  unfold locking_problem. rewrite andb_true_iff, negb_true_iff, Z.eqb_neq.
  split.
  - intros [Hl Hw]. split; [exact Hl|].
    destruct (intWork p) as [w|]; [|discriminate].
    exists w. split; [reflexivity|]. now apply Z.eqb_eq.
  - intros [Hl (w & -> & Hw)]. split; [exact Hl|]. now apply Z.eqb_eq.
Qed.

(** The report, piece by piece. *)
Lemma report_shape (P : string) (r : solved F) (out : list (event F)) :
  exists warning,
    report P r out
    = out
      ++ lines_from (Z.to_nat (initSize (primme_after r))) 0 (eval_line r)
      ++ summary_lines P (primme_after r)
      ++ warning
      ++ recommendation (dynamicMethodSwitch (primme_after r))
    /\ ((locking_problem (primme_after r) /\ warning = locking_warning)
        \/ (~ locking_problem (primme_after r) /\ warning = [])).
Proof.
  unfold report. rewrite switch_is_recommendation.
  unfold for_upto. rewrite for_from_emit. fold (eval_line r).
  pose proof (locking_test (primme_after r)) as Ht.
  destruct (negb (locking (primme_after r) =? 0)
            && match intWork (primme_after r) with
               | Some w => w 0 =? 1
               | None => false
               end).
  - exists locking_warning. split.
    + unfold emit, summary_lines, locking_warning.
      now rewrite <- !app_assoc.
    + left. split; [now apply Ht|reflexivity].
  - exists []. split.
    + unfold emit, summary_lines. now rewrite <- !app_assoc.
    + right. split; [|reflexivity]. intros Hp. apply Ht in Hp. discriminate.
Qed.

Lemma warning_not_eval (r : solved F) (e : event F) k i :
  In e locking_warning -> ~ In e (lines_from k i (eval_line r)).
Proof.
  intros He Hin. apply lines_from_In in Hin as (j & _ & ->).
  unfold eval_line in He.
  destruct He as [He|[He|[He|[]]]]; discriminate He.
Qed.

Lemma warning_not_summary (P : string) (p : primme_params F) (e : event F) :
  In e locking_warning -> ~ In e (summary_lines P p).
Proof.
  intros He Hin. unfold summary_lines in Hin.
  destruct He as [<-|[<-|[<-|[]]]];
    repeat (destruct Hin as [Hin|Hin]; [discriminate Hin|]); exact Hin.
Qed.

Lemma warning_not_recommendation (v : Z) (e : event F) :
  In e locking_warning -> ~ In e (recommendation v).
Proof.
  intros He Hin. unfold recommendation in Hin.
  destruct (v =? -1), (v =? -2), (v =? -3);
    destruct He as [<-|[<-|[<-|[]]]];
    repeat (destruct Hin as [Hin|Hin]; [discriminate Hin|]); exact Hin.
Qed.

Lemma eval_not_after (r : solved F) v i :
  ~ In (eval_line r i) (recommendation v).
Proof.
  intros Hin. unfold recommendation, eval_line in Hin.
  destruct (v =? -1), (v =? -2), (v =? -3);
    repeat (destruct Hin as [Hin|Hin]; [discriminate Hin|]); exact Hin.
Qed.

Lemma no_recommendation_in_evals (r : solved F) k :
  forall i, filter is_recommendation (lines_from k i (eval_line r)) = [].
Proof.
  induction k as [|k IH]; intros i; cbn [lines_from]; [reflexivity|].
  cbn [filter]. rewrite IH. reflexivity.
Qed.

Lemma no_recommendation_in_summary (P : string) (p : primme_params F) :
  filter is_recommendation (summary_lines P p) = [].
Proof. reflexivity. Qed.

Lemma recommendation_kept (v : Z) :
  filter is_recommendation (recommendation (F := F) v) = recommendation v.
Proof.
  unfold recommendation.
  destruct (v =? -1), (v =? -2), (v =? -3); reflexivity.
Qed.

Lemma main_failure (P : string) init set_method
    (dprimme : primme_params F -> solved F) :
  let r := dprimme (solver_input init set_method) in
  ret r <> 0 ->
  main P init set_method dprimme
  = (-1, [display_params (solver_input init set_method);
          fprintf fmt_error [ArgInt (ret r)]]).
Proof.
  intros r Hr. unfold main. fold r.
  apply Z.eqb_neq in Hr. now rewrite Hr.
Qed.

Lemma main_success (P : string) init set_method
    (dprimme : primme_params F -> solved F) :
  let r := dprimme (solver_input init set_method) in
  ret r = 0 ->
  main P init set_method dprimme
  = (0, report P r [display_params (solver_input init set_method)]).
Proof.
  intros r Hr. unfold main. fold r.
  apply Z.eqb_eq in Hr. now rewrite Hr.
Qed.
End DriverFacts.

(** C4, as the code has it. When the solver call returns a nonzero status
    the driver prints the error line with that status and returns -1, and
    nothing else: no eigenvalue, residual norm or statistic that the solver
    left behind is reported. *)
Theorem failed_solve_reports_only_the_error :
  forall (F : Type) (A : Arith F) (P : string) init set_method
         (dprimme : primme_params F -> solved F),
    let r := dprimme (solver_input init set_method) in
    ret r <> 0 ->
    main P init set_method dprimme
    = (-1, [display_params (solver_input init set_method);
            fprintf fmt_error [ArgInt (ret r)]])
    /\ forall i, ~ In (eval_line r i) (snd (main P init set_method dprimme)).
Proof.
  intros F A P init set_method dprimme r Hr.
  pose proof (main_failure P init set_method dprimme Hr) as Hm. fold r in Hm.
  split; [exact Hm|].
  intros i. rewrite Hm. cbn [snd In]. unfold eval_line.
  intros [Hin|[Hin|[]]]; discriminate Hin.
Qed.

Lemma failed_solve_reports_only_the_error_witness :
  exhausted_run
  = (-1, [display_params (solver_input sample_defaults sample_set_method);
          fprintf fmt_error [ArgInt (-3)]]).
Proof.
  apply (failed_solve_reports_only_the_error float float_Arith "lld"
           sample_defaults sample_set_method exhausted_solve).
  cbn. lia.
Defined.

(** C4, as the claim has it, fails: the sample solve returns status -3 with
    two converged eigenpairs, and the driver reports neither of them. *)
Lemma failed_solve_drops_partial_results :
  ret (exhausted_solve (solver_input sample_defaults sample_set_method)) <> 0
  /\ initSize
       (primme_after
          (exhausted_solve (solver_input sample_defaults sample_set_method)))
     = 2
  /\ ~ In (eval_line
             (exhausted_solve (solver_input sample_defaults sample_set_method))
             0)
          (snd exhausted_run).
Proof.
  split; [cbn; lia|]. split; [reflexivity|].
  unfold exhausted_run, main. cbn [ret exhausted_solve Z.eqb negb snd emit app In].
  unfold eval_line.
  intros [Hin|[Hin|[]]]; discriminate Hin.
Qed.

(** C5. After a solve that returned 0 the driver returns 0 whether or not
    it warns, and each line of the locking warning is in its output if and
    only if locking is enabled, the integer workspace pointer is not null
    and its first slot is 1; the warning then comes as a whole after the
    lines of all converged eigenpairs. *)
Theorem locking_warning_iff_problem :
  forall (F : Type) (A : Arith F) (P : string) init set_method
         (dprimme : primme_params F -> solved F),
    let r := dprimme (solver_input init set_method) in
    let p := primme_after r in
    let run := main P init set_method dprimme in
    ret r = 0 ->
    fst run = 0
    /\ (forall e, In e locking_warning ->
                  (In e (snd run) <-> locking_problem p))
    /\ (locking_problem p ->
        exists before after,
          snd run = before ++ locking_warning ++ after
          /\ (forall i, 0 <= i < initSize p -> In (eval_line r i) before)
          /\ (forall i, ~ In (eval_line r i) after)).
Proof.
  intros F A P init set_method dprimme r p run Hr.
  pose proof (main_success P init set_method dprimme Hr) as Hm.
  fold r run in Hm.
  destruct (report_shape P r [display_params (solver_input init set_method)])
    as (warning & Hshape & Hw).
  fold p in Hshape, Hw.
  rewrite Hshape in Hm. rewrite Hm. cbn [fst snd].
  split; [reflexivity|]. split.
  - intros e He. rewrite !in_app_iff.
    destruct Hw as [[Hp ->]|[Hn ->]].
    + split; [intros _; exact Hp|]. intros _. do 3 right. now left.
    + split; [|intros Hp; now destruct (Hn Hp)].
      intros [Hin|[Hin|[Hin|[[]|Hin]]]]; exfalso.
      * destruct He as [<-|[<-|[<-|[]]]];
          destruct Hin as [Hin|[]]; discriminate Hin.
      * now apply (warning_not_eval r e _ _ He) in Hin.
      * now apply (warning_not_summary P p e He) in Hin.
      * now apply (warning_not_recommendation _ e He) in Hin.
  - intros Hp. destruct Hw as [[_ ->]|[Hn _]]; [|now destruct (Hn Hp)].
    exists ([display_params (solver_input init set_method)]
            ++ lines_from (Z.to_nat (initSize p)) 0 (eval_line r)
            ++ summary_lines P p),
           (recommendation (dynamicMethodSwitch p)).
    split; [now rewrite <- !app_assoc|]. split.
    + intros i Hi. rewrite !in_app_iff. right. left.
      apply lines_from_In. exists i. split; [lia|reflexivity].
    + intros i. apply eval_not_after.
Qed.

Lemma locking_warning_iff_problem_witness :
  In (fprintf fmt_locking_1 []) (snd converged_run)
  <-> locking_problem
        (primme_after
           (converged_solve (solver_input sample_defaults sample_set_method))).
Proof.
  apply (proj1 (proj2
           (locking_warning_iff_problem float float_Arith "lld"
              sample_defaults sample_set_method converged_solve eq_refl))).
  cbn. now left.
Defined.

(** C6, as the code has it. After a solve that returned 0, the recommendation
    lines in the driver's output are exactly the one that belongs to the
    recommendation value: DEFAULT_MIN_MATVECS for -1, DEFAULT_MIN_TIME for
    -2, DYNAMIC (close call) for -3, and none for any other value. *)
Theorem recommendation_after_success :
  forall (F : Type) (A : Arith F) (P : string) init set_method
         (dprimme : primme_params F -> solved F),
    let r := dprimme (solver_input init set_method) in
    let v := dynamicMethodSwitch (primme_after r) in
    let said :=
      filter is_recommendation (snd (main P init set_method dprimme)) in
    ret r = 0 ->
    (v = -1 -> said = [fprintf fmt_min_matvecs []])
    /\ (v = -2 -> said = [fprintf fmt_min_time []])
    /\ (v = -3 -> said = [fprintf fmt_close_call []])
    /\ (v <> -1 -> v <> -2 -> v <> -3 -> said = []).
Proof.
  intros F A P init set_method dprimme r v said Hr.
  assert (Hsaid : said = recommendation v).
  { subst said.
    rewrite (main_success P init set_method dprimme Hr). fold r. cbn [snd].
    destruct (report_shape P r [display_params (solver_input init set_method)])
      as (warning & -> & Hw).
    rewrite !filter_app, no_recommendation_in_evals,
      no_recommendation_in_summary, recommendation_kept.
    destruct Hw as [[_ ->]|[_ ->]]; reflexivity. }
  rewrite Hsaid. unfold recommendation.
  repeat split.
  - now intros ->.
  - now intros ->.
  - now intros ->.
  - intros H1 H2 H3.
    apply Z.eqb_neq in H1, H2, H3. now rewrite H1, H2, H3.
Qed.

Lemma recommendation_after_success_witness :
  filter is_recommendation (snd converged_run) = [fprintf fmt_close_call []].
Proof.
  apply (proj1 (proj2 (proj2
           (recommendation_after_success float float_Arith "lld"
              sample_defaults sample_set_method converged_solve eq_refl)))).
  reflexivity.
Defined.

(** C6, as the claim has it, fails: the sample solve ends with the
    recommendation value -1 and a nonzero status, and the driver's output
    has no recommendation line. *)
Lemma failed_solve_gives_no_recommendation :
  dynamicMethodSwitch
    (primme_after
       (exhausted_solve (solver_input sample_defaults sample_set_method)))
  = -1
  /\ ~ In (fprintf fmt_min_matvecs []) (snd exhausted_run)
  /\ filter is_recommendation (snd exhausted_run) = [].
Proof.
  split; [reflexivity|]. split; [|reflexivity].
  unfold exhausted_run, main.
  cbn [ret exhausted_solve Z.eqb negb snd emit app In].
  intros [Hin|[Hin|[]]]; discriminate Hin.
Qed.

(** C9. Whatever defaults [primme_initialize] writes, the driver sets the
    dimension to 100, the number of wanted eigenpairs to 10, the tolerance
    to 1e-9 and the target to the smallest eigenvalues; the struct so
    configured, with the method set, is the one the solver is called on, and
    it still has these four values when setting the method leaves them
    alone. *)
Theorem driver_configuration :
  forall (F : Type) (A : Arith F) (P : string) init set_method,
    let c := configure init in
    let p := solver_input init set_method in
    (n c = 100 /\ numEvals c = 10 /\ eps c = lit_1em9
     /\ target c = primme_smallest)
    /\ p = set_method PRIMME_DYNAMIC c
    /\ (forall d1 d2 : primme_params F -> solved F,
          d1 p = d2 p -> main P init set_method d1 = main P init set_method d2)
    /\ ((forall q, n (set_method PRIMME_DYNAMIC q) = n q
                   /\ numEvals (set_method PRIMME_DYNAMIC q) = numEvals q
                   /\ eps (set_method PRIMME_DYNAMIC q) = eps q
                   /\ target (set_method PRIMME_DYNAMIC q) = target q) ->
        n p = 100 /\ numEvals p = 10 /\ eps p = lit_1em9
        /\ target p = primme_smallest).
Proof.
  intros F A P init set_method c p.
  split; [repeat split|]. split; [reflexivity|]. split.
  - intros d1 d2 Hd. unfold main. fold p. now rewrite Hd.
  - intros Hkeep. subst p. unfold solver_input. fold c.
    destruct (Hkeep c) as (-> & -> & -> & ->). repeat split.
Qed.

Lemma driver_configuration_witness :
  n (solver_input sample_defaults sample_set_method) = 100
  /\ numEvals (solver_input sample_defaults sample_set_method) = 10
  /\ eps (solver_input sample_defaults sample_set_method)
     = 0x1.12e0be826d695p-30%float
  /\ target (solver_input sample_defaults sample_set_method) = primme_smallest.
Proof.
  apply (proj2 (proj2 (proj2
           (driver_configuration float float_Arith "lld"
              sample_defaults sample_set_method)))).
  intros q. repeat split.
Defined.

(** ** The callbacks on binary64 values *)

(** Cell [a] holds the double [a + 1]. *)
Example matvec_binary64 :
  let s := {| doubles := fun a => PrimFloat.of_uint63 (Uint63.of_Z (a + 1));
              status := -1 |} in
  map (doubles (LaplacianMatrixMatvec 0 4 100 5 2 (sample_params 4) s))
      [100; 101; 102; 103; 104; 105; 106; 107; 108; 109]
  = [0; 0; 0; 5; 105; 4; 0; 0; 9; 110]%float.
Proof. vm_compute. reflexivity. Qed.

Example preconditioner_binary64 :
  let s := {| doubles := fun a => PrimFloat.of_uint63 (Uint63.of_Z (a + 1));
              status := -1 |} in
  map (doubles (LaplacianApplyPreconditioner 0 4 100 5 2 (sample_params 4) s))
      [100; 101; 102; 103; 104; 105; 106; 107; 108; 109]
  = [0.5; 1; 1.5; 2; 105; 2.5; 3; 3.5; 4; 110]%float.
Proof. vm_compute. reflexivity. Qed.

(** With [ldy < n] the output columns overlap and the later column wins. *)
Example matvec_overlapping_columns :
  let s := {| doubles := fun a => PrimFloat.of_uint63 (Uint63.of_Z (a + 1));
              status := -1 |} in
  map (doubles (LaplacianMatrixMatvec 0 4 100 0 2 (sample_params 4) s))
      [100; 101; 102; 103]
  = [4; 0; 0; 9]%float.
Proof. vm_compute. reflexivity. Qed.


(** * Further properties of the callbacks *)

(** ** Splitting a block, empty blocks *)

Lemma for_from_app {S : Type} (body : Z -> S -> S) (k1 k2 : nat) :
  forall i s,
    for_from (k1 + k2) i body s
    = for_from k2 (i + Z.of_nat k1) body (for_from k1 i body s).
Proof.
  induction k1 as [|k1 IH]; intros i s.
  - cbn [Nat.add for_from]. f_equal. lia.
  - cbn [Nat.add for_from]. rewrite IH. f_equal. lia.
Qed.

Lemma for_from_shift {S : Type} (body : Z -> S -> S) (c : Z) (k : nat) :
  forall i s,
    for_from k i (fun j => body (j + c)) s = for_from k (i + c) body s.
Proof.
  induction k as [|k IH]; intros i s; cbn [for_from]; [reflexivity|].
  rewrite IH. f_equal. lia.
Qed.

Lemma for_from_skip {S : Type} (body : Z -> S -> S) (k : nat) :
  forall i s,
    (forall j s', body j s' = s') -> for_from k i body s = s.
Proof.
  induction k as [|k IH]; intros i s Hb; cbn [for_from]; [reflexivity|].
  rewrite Hb. now apply IH.
Qed.

Lemma block_split {F : Type}
    (row_body : Z -> Z -> Z -> Z -> mem F -> mem F)
    x ldx y ldy b1 b2 dim (m : mem F) :
  0 <= b1 -> 0 <= b2 ->
  block row_body x ldx y ldy (b1 + b2) dim m
  = block row_body (x + ldx * b1) ldx (y + ldy * b1) ldy b2 dim
      (block row_body x ldx y ldy b1 dim m).
Proof.
  intros H1 H2. unfold block, for_upto.
  rewrite Z2Nat.inj_add by assumption.
  rewrite for_from_app. rewrite Z2Nat.id by assumption.
  rewrite <- (for_from_shift _ b1). cbn [Z.add].
  apply for_from_ext. intros j m'. f_equal; ring.
Qed.

Lemma block_empty {F : Type}
    (row_body : Z -> Z -> Z -> Z -> mem F -> mem F)
    x ldx y ldy b dim (m : mem F) :
  b <= 0 \/ dim <= 0 ->
  block row_body x ldx y ldy b dim m = m.
Proof.
  intros [Hb|Hd]; unfold block, for_upto.
  - now replace (Z.to_nat b) with 0%nat by lia.
  - apply for_from_skip. intros j m'. unfold column, for_upto.
    now replace (Z.to_nat dim) with 0%nat by lia.
Qed.

(** X1. A call with block width [b1 + b2] leaves the same state as a call
    with width [b1] followed by a call with width [b2] on the columns from
    [b1] on (pointers advanced by [ldx*b1] and [ldy*b1]), for both callbacks
    and in any arithmetic. *)
Theorem callbacks_split_block :
  forall (F : Type) (A : Arith F)
         (f : Z -> Z -> Z -> Z -> Z -> primme_params F -> state F -> state F),
    f = LaplacianMatrixMatvec \/ f = LaplacianApplyPreconditioner ->
    forall x ldx y ldy b1 b2 (primme : primme_params F) (s : state F),
      0 <= b1 -> 0 <= b2 ->
      f x ldx y ldy (b1 + b2) primme s
      = f (x + ldx * b1) ldx (y + ldy * b1) ldy b2 primme
          (f x ldx y ldy b1 primme s).
Proof.
  intros F A f Hf x ldx y ldy b1 b2 primme s H1 H2.
  destruct Hf as [-> | ->].
  - unfold LaplacianMatrixMatvec at 1 2. f_equal.
    change (block matvec_row x ldx y ldy (b1 + b2) (n primme) (doubles s)
            = block matvec_row (x + ldx * b1) ldx (y + ldy * b1) ldy b2
                (n primme)
                (doubles (LaplacianMatrixMatvec x ldx y ldy b1 primme s))).
    rewrite matvec_is_block. now apply block_split.
  - unfold LaplacianApplyPreconditioner at 1 2. f_equal.
    change (block precond_row x ldx y ldy (b1 + b2) (n primme) (doubles s)
            = block precond_row (x + ldx * b1) ldx (y + ldy * b1) ldy b2
                (n primme)
                (doubles (LaplacianApplyPreconditioner x ldx y ldy b1 primme s))).
    rewrite precond_is_block. now apply block_split.
Qed.

Lemma callbacks_split_block_witness :
  LaplacianMatrixMatvec 0 3 6 3 (1 + 1) (sample_params 3) ramp
  = LaplacianMatrixMatvec (0 + 3 * 1) 3 (6 + 3 * 1) 3 1 (sample_params 3)
      (LaplacianMatrixMatvec 0 3 6 3 1 (sample_params 3) ramp).
Proof.
  apply (callbacks_split_block R R_Arith LaplacianMatrixMatvec
           (or_introl eq_refl) 0 3 6 3 1 1 (sample_params 3) ramp); lia.
Defined.

(** X2. With a block width or a dimension that is zero or negative, both
    callbacks leave every [double] of the store as it was and still set the
    status to 0. *)
Theorem callbacks_on_empty_block :
  forall (F : Type) (A : Arith F)
         (f : Z -> Z -> Z -> Z -> Z -> primme_params F -> state F -> state F),
    f = LaplacianMatrixMatvec \/ f = LaplacianApplyPreconditioner ->
    forall x ldx y ldy b (primme : primme_params F) (s : state F),
      b <= 0 \/ n primme <= 0 ->
      f x ldx y ldy b primme s = {| doubles := doubles s; status := 0 |}.
Proof.
  intros F A f Hf x ldx y ldy b primme s He.
  destruct Hf as [-> | ->].
  - unfold LaplacianMatrixMatvec. f_equal.
    now apply (block_empty matvec_row).
  - unfold LaplacianApplyPreconditioner. f_equal.
    now apply (block_empty precond_row).
Qed.

Lemma callbacks_on_empty_block_witness :
  LaplacianApplyPreconditioner 0 3 6 3 (-2) (sample_params 3) ramp
  = {| doubles := doubles ramp; status := 0 |}.
Proof.
  apply (callbacks_on_empty_block R R_Arith LaplacianApplyPreconditioner
           (or_intror eq_refl) 0 3 6 3 (-2) (sample_params 3) ramp).
  left. lia.
Defined.

(** ** What an output cell depends on *)

Lemma lap_row_local {F : Type} `{Arith F} dim (f g : Z -> F) row :
  (forall r, 0 <= r < dim -> row - 1 <= r <= row + 1 -> f r = g r) ->
  0 <= row < dim ->
  lap_row dim f row = lap_row dim g row.
Proof.
  intros Hfg Hrow. unfold lap_row.
  destruct (row - 1 >=? 0) eqn:Hlo, (row + 1 <? dim) eqn:Hhi;
    rewrite ?(Hfg row), ?(Hfg (row - 1)), ?(Hfg (row + 1)) by lia;
    reflexivity.
Qed.

(** X3. An output cell depends on the store before the call only through
    the input cells next to it: cell [row] of output column [i] of
    [LaplacianMatrixMatvec] is the same for two stores that agree on rows
    [row-1], [row], [row+1] of input column [i], and that of
    [LaplacianApplyPreconditioner] for two stores that agree on row [row]
    of input column [i]; the previous content of the output block, the other
    columns and the rest of the store play no part. *)
Theorem callbacks_are_local :
  forall (F : Type) (A : Arith F) x ldx y ldy b
         (primme : primme_params F) (s1 s2 : state F) i row,
    n primme <= ldy ->
    separate x ldx y ldy b (n primme) ->
    0 <= i < b -> 0 <= row < n primme ->
    ((forall r, 0 <= r < n primme -> row - 1 <= r <= row + 1 ->
        doubles s1 (x + ldx * i + r) = doubles s2 (x + ldx * i + r)) ->
     doubles (LaplacianMatrixMatvec x ldx y ldy b primme s1) (y + ldy * i + row)
     = doubles (LaplacianMatrixMatvec x ldx y ldy b primme s2)
         (y + ldy * i + row))
    /\ (doubles s1 (x + ldx * i + row) = doubles s2 (x + ldx * i + row) ->
        doubles (LaplacianApplyPreconditioner x ldx y ldy b primme s1)
          (y + ldy * i + row)
        = doubles (LaplacianApplyPreconditioner x ldx y ldy b primme s2)
            (y + ldy * i + row)).
Proof.
  intros F A x ldx y ldy b primme s1 s2 i row Hld Hsep Hi Hrow. split.
  - intros Hagree. rewrite !matvec_cell by assumption.
    now apply lap_row_local.
  - intros Hagree. rewrite !precond_cell by assumption. now rewrite Hagree.
Qed.

Lemma callbacks_are_local_witness :
  doubles (LaplacianApplyPreconditioner 0 3 6 3 2 (sample_params 3) ramp)
    (6 + 3 * 1 + 2)
  = doubles
      (LaplacianApplyPreconditioner 0 3 6 3 2 (sample_params 3)
         {| doubles := fun a => if a <? 6 then IZR (a + 1) else 0%R;
            status := 5 |})
      (6 + 3 * 1 + 2).
Proof.
  assert (Hsep : separate 0 3 6 3 2 3) by (intros i r j r' Hi Hr Hj Hr'; lia).
  apply (proj2 (callbacks_are_local R R_Arith 0 3 6 3 2 (sample_params 3) ramp
                  {| doubles := fun a => if a <? 6 then IZR (a + 1) else 0%R;
                     status := 5 |} 1 2
                  ltac:(cbn; lia) Hsep ltac:(lia) ltac:(cbn; lia))).
  reflexivity.
Defined.

(** ** Calling a callback again *)

Lemma bounded_search (P : Z -> Prop) (k : nat) :
  (forall i, P i \/ ~ P i) ->
  forall lo,
    (exists i, lo <= i < lo + Z.of_nat k /\ P i)
    \/ ~ (exists i, lo <= i < lo + Z.of_nat k /\ P i).
Proof.
  intros Pdec. induction k as [|k IH]; intros lo.
  - right. intros (i & Hi & _). lia.
  - destruct (Pdec lo) as [Hlo|Hlo].
    + left. exists lo. split; [lia|exact Hlo].
    + destruct (IH (lo + 1)) as [(i & Hi & HP)|Hno].
      * left. exists i. split; [lia|exact HP].
      * right. intros (i & Hi & HP).
        destruct (Z.eq_dec i lo) as [->|Hne]; [now apply Hlo|].
        apply Hno. exists i. split; [lia|exact HP].
Qed.

Lemma in_block_decidable y ld b dim a :
  in_block y ld b dim a \/ ~ in_block y ld b dim a.
Proof.
  assert (Hdec : forall i,
             0 <= a - y - ld * i < dim \/ ~ 0 <= a - y - ld * i < dim).
  { intros i.
    destruct (Z_le_dec 0 (a - y - ld * i)), (Z_lt_dec (a - y - ld * i) dim);
      [left; split; assumption | right; intros []; contradiction ..]. }
  destruct (bounded_search
              (fun i => 0 <= a - y - ld * i < dim) (Z.to_nat b) Hdec 0)
    as [(i & Hi & HP)|Hno].
  - left. exists i, (a - y - ld * i). repeat split; lia.
  - right. intros (i & row & Hi & Hrow & ->). apply Hno.
    exists i. split; lia.
Qed.

Section Again.
Context {F : Type}.
Variable row_body : Z -> Z -> Z -> Z -> mem F -> mem F.
Variable row_val : Z -> (Z -> F) -> Z -> F.

Hypothesis row_frame :
  forall xvec yvec dim row m a,
    a <> yvec + row -> row_body xvec yvec dim row m a = m a.
Hypothesis row_value :
  forall xvec yvec dim row m,
    0 <= row < dim ->
    (forall r, 0 <= r < dim -> xvec + r <> yvec + row) ->
    row_body xvec yvec dim row m (yvec + row)
    = row_val dim (fun r => m (xvec + r)) row.
Hypothesis row_val_ext :
  forall dim f g row,
    0 <= row < dim ->
    (forall r, 0 <= r < dim -> f r = g r) ->
    row_val dim f row = row_val dim g row.

Lemma block_again x ldx y ldy b dim (m : mem F) a :
  dim <= ldy ->
  separate x ldx y ldy b dim ->
  block row_body x ldx y ldy b dim (block row_body x ldx y ldy b dim m) a
  = block row_body x ldx y ldy b dim m a.
Proof.
  intros Hld Hsep.
  destruct (in_block_decidable y ldy b dim a)
    as [(i & row & Hi & Hrow & ->)|Hout].
  - rewrite !(block_value row_body row_val row_frame row_value row_val_ext)
      by assumption.
    apply row_val_ext; [assumption|].
    intros r Hr. apply (block_frame row_body row_frame).
    now apply input_not_in_block.
  - now rewrite !(block_frame row_body row_frame) by assumption.
Qed.
End Again.

(** X4. Calling a callback a second time with the same arguments changes
    nothing: when the input block shares no cell with the output block and
    [ldy >= n], the state after two calls has the same status and the same
    value in every cell of the store as the state after one call. *)
Theorem callbacks_idempotent :
  forall (F : Type) (A : Arith F)
         (f : Z -> Z -> Z -> Z -> Z -> primme_params F -> state F -> state F),
    f = LaplacianMatrixMatvec \/ f = LaplacianApplyPreconditioner ->
    forall x ldx y ldy b (primme : primme_params F) (s : state F),
      n primme <= ldy ->
      separate x ldx y ldy b (n primme) ->
      let once := f x ldx y ldy b primme s in
      let twice := f x ldx y ldy b primme once in
      status twice = status once
      /\ forall a, doubles twice a = doubles once a.
Proof.
  intros F A f Hf x ldx y ldy b primme s Hld Hsep once twice.
  subst once twice. destruct Hf as [-> | ->].
  - split; [reflexivity|]. intros a. rewrite !matvec_is_block.
    apply (block_again matvec_row lap_row); auto.
    + apply matvec_row_frame.
    + apply matvec_row_value.
    + apply lap_row_ext.
  - split; [reflexivity|]. intros a. rewrite !precond_is_block.
    apply (block_again precond_row half_row); auto.
    + apply precond_row_frame.
    + apply precond_row_value.
    + apply half_row_ext.
Qed.

Lemma callbacks_idempotent_witness :
  doubles
    (LaplacianMatrixMatvec 0 3 6 3 2 (sample_params 3)
       (LaplacianMatrixMatvec 0 3 6 3 2 (sample_params 3) ramp)) 7
  = doubles (LaplacianMatrixMatvec 0 3 6 3 2 (sample_params 3) ramp) 7.
Proof.
  assert (Hsep : separate 0 3 6 3 2 3) by (intros i r j r' Hi Hr Hj Hr'; lia).
  apply (proj2 (callbacks_idempotent R R_Arith LaplacianMatrixMatvec
                  (or_introl eq_refl) 0 3 6 3 2 (sample_params 3) ramp
                  ltac:(cbn; lia) Hsep)).
Defined.

(** ** Calls in place: the input and the output block are the same cells *)

Section InPlace.
Context {F : Type} `{Arith F}.

Lemma block_cell_via_column
    (row_body : Z -> Z -> Z -> Z -> mem F -> mem F)
    (row_frame : forall xvec yvec dim row m a,
        a <> yvec + row -> row_body xvec yvec dim row m a = m a)
    x ldx y ldy b dim (m : mem F) i row :
  dim <= ldy -> 0 <= i < b -> 0 <= row < dim ->
  block row_body x ldx y ldy b dim m (y + ldy * i + row)
  = column row_body (x + ldx * i) (y + ldy * i) dim
      (block row_body x ldx y ldy i dim m) (y + ldy * i + row).
Proof.
  intros Hld Hi Hrow. unfold block at 1, for_upto.
  replace (Z.to_nat b)
    with (Z.to_nat i + (1 + (Z.to_nat b - Z.to_nat i - 1)))%nat by lia.
  rewrite for_from_app, for_from_app.
  rewrite (cols_frame row_body row_frame).
  - cbn [for_from Nat.add]. rewrite Z2Nat.id by lia. reflexivity.
  - intros j r Hj Hr. nia.
Qed.

Lemma precond_rows_in_place yv dim k :
  forall start (m : mem F) row,
    start <= row < start + Z.of_nat k ->
    for_from k start (precond_row yv yv dim) m (yv + row)
    = fdiv (m (yv + row)) lit_2_0.
Proof.
  induction k as [|k IH]; intros start m row Hrow; [lia|].
  cbn [for_from].
  destruct (Z.eq_dec row start) as [->|Hne].
  - rewrite (rows_frame precond_row precond_row_frame) by (intros; lia).
    unfold precond_row, load. now rewrite store_same.
  - rewrite IH by lia. f_equal. apply precond_row_frame. lia.
Qed.

Lemma matvec_row_in_place yv dim row (m : mem F) :
  matvec_row yv yv dim row m (yv + row)
  = lap_row_in_place dim (m (yv + (row - 1))) (m (yv + (row + 1))) row.
Proof.
  unfold matvec_row, lap_row_in_place, load.
  destruct (row - 1 >=? 0) eqn:Hlo, (row + 1 <? dim) eqn:Hhi;
    repeat match goal with
    | |- context [store ?a _ _ ?a] => rewrite store_same
    | |- context [store (yv + row) _ _ (yv + (row - 1))] =>
        rewrite (store_other (yv + row) (yv + (row - 1))) by lia
    | |- context [store (yv + row) _ _ (yv + (row + 1))] =>
        rewrite (store_other (yv + row) (yv + (row + 1))) by lia
    end; reflexivity.
Qed.

Lemma lap_row_in_place_ext dim (prev prev' next next' : F) row :
  (0 < row -> prev = prev') ->
  (row + 1 < dim -> next = next') ->
  lap_row_in_place dim prev next row = lap_row_in_place dim prev' next' row.
Proof.
  intros Hp Hn. unfold lap_row_in_place.
  destruct (Z.geb_spec (row - 1) 0), (Z.ltb_spec (row + 1) dim);
    rewrite ?Hp, ?Hn by lia; reflexivity.
Qed.

Lemma matvec_rows_in_place yv dim k :
  forall start (m : mem F) row,
    start <= row < start + Z.of_nat k ->
    let final := for_from k start (matvec_row yv yv dim) m in
    final (yv + row)
    = lap_row_in_place dim (final (yv + (row - 1))) (m (yv + (row + 1))) row.
Proof.
  induction k as [|k IH]; intros start m row Hrow final; [lia|].
  subst final. cbn [for_from].
  destruct (Z.eq_dec row start) as [->|Hne].
  - rewrite !(rows_frame matvec_row matvec_row_frame) by (intros; lia).
    rewrite matvec_row_in_place.
    now rewrite (matvec_row_frame yv yv dim start m (yv + (start - 1))) by lia.
  - rewrite IH by lia.
    now rewrite (matvec_row_frame yv yv dim start m (yv + (row + 1))) by lia.
Qed.
End InPlace.

(** X5. [LaplacianApplyPreconditioner] can be called in place: with the
    same pointer and leading dimension for input and output ([ldy >= n]),
    every cell of the block ends up holding half (the code's division by
    2.0) of what it held before the call. *)
Theorem preconditioner_in_place :
  forall (F : Type) (A : Arith F) y ldy b
         (primme : primme_params F) (s : state F) i row,
    n primme <= ldy ->
    0 <= i < b -> 0 <= row < n primme ->
    doubles (LaplacianApplyPreconditioner y ldy y ldy b primme s)
      (y + ldy * i + row)
    = fdiv (doubles s (y + ldy * i + row)) lit_2_0.
Proof.
  intros F A y ldy b primme s i row Hld Hi Hrow.
  rewrite precond_is_block.
  rewrite (block_cell_via_column precond_row precond_row_frame) by assumption.
  unfold column, for_upto.
  rewrite precond_rows_in_place by lia.
  f_equal. apply (block_frame precond_row precond_row_frame).
  apply later_column_not_in_block; lia.
Qed.

Lemma preconditioner_in_place_witness :
  doubles (LaplacianApplyPreconditioner 0 3 0 3 2 (sample_params 3) ramp)
    (0 + 3 * 1 + 2)
  = (doubles ramp (0 + 3 * 1 + 2)%Z / 2)%R.
Proof.
  apply (preconditioner_in_place R R_Arith 0 3 2 (sample_params 3) ramp 1 2);
    cbn; lia.
Defined.

(** X6. [LaplacianMatrixMatvec] must not be called in place: with the same
    pointer and leading dimension for input and output ([ldy >= n]) the
    term [2.0*xvec[row]] reads the accumulator that was just reset and the
    term [xvec[row-1]] reads the output of the row before, so that cell
    [row] ends up as [acc + 2.0*acc + -1.0*X[row+1]] with
    [acc = 0.0 + -1.0*Y[row-1]]: the input [X[row]] itself is never used. *)
Theorem matvec_in_place :
  forall (F : Type) (A : Arith F) y ldy b
         (primme : primme_params F) (s : state F) i row,
    n primme <= ldy ->
    0 <= i < b -> 0 <= row < n primme ->
    let Y := doubles (LaplacianMatrixMatvec y ldy y ldy b primme s) in
    Y (y + ldy * i + row)
    = lap_row_in_place (n primme)
        (Y (y + ldy * i + (row - 1)))
        (doubles s (y + ldy * i + (row + 1))) row.
Proof.
  intros F A y ldy b primme s i row Hld Hi Hrow Y. subst Y.
  rewrite !matvec_is_block.
  rewrite (block_cell_via_column matvec_row matvec_row_frame) by assumption.
  unfold column at 1, for_upto.
  rewrite matvec_rows_in_place by lia.
  apply lap_row_in_place_ext.
  - intros Hpos.
    rewrite (block_cell_via_column matvec_row matvec_row_frame
               y ldy y ldy b (n primme) (doubles s) i (row - 1))
      by lia.
    reflexivity.
  - intros Hnext. apply (block_frame matvec_row matvec_row_frame).
    apply later_column_not_in_block; lia.
Qed.

Lemma matvec_in_place_witness :
  doubles (LaplacianMatrixMatvec 0 3 0 3 1 (sample_params 3) ramp) (0 + 3 * 0 + 0)
  = (0 + 2 * 0 + -1 * doubles ramp (0 + 3 * 0 + (0 + 1))%Z)%R.
Proof.
  apply (matvec_in_place R R_Arith 0 3 1 (sample_params 3) ramp 0 0);
    cbn; lia.
Defined.


(** ** Exact arithmetic: the two operators *)

Section ExactOperators.
Local Open Scope R_scope.

Lemma apply_preconditioner_row (primme : primme_params R) (v : Z -> R) row :
  (0 <= row < n primme)%Z ->
  apply_preconditioner primme v row = v row / 2.
Proof.
  intros Hrow. unfold apply_preconditioner.
  replace (n primme + row)%Z with (n primme + n primme * 0 + row)%Z by lia.
  rewrite precond_cell; try lia.
  - cbn [doubles fdiv lit_2_0 R_Arith]. do 2 f_equal. lia.
  - intros i r j r' Hi Hr Hj Hr'.
    replace i with 0%Z by lia. replace j with 0%Z by lia. lia.
Qed.

Lemma sum_upto_le k (f g : Z -> R) :
  (forall r, f r <= g r) -> sum_upto k f <= sum_upto k g.
Proof.
  intros Hfg. induction k as [|k IH]; cbn [sum_upto]; [lra|].
  specialize (Hfg (Z.of_nat k)). lra.
Qed.

Lemma sum_upto_linear k (a b : R) (f g : Z -> R) :
  sum_upto k (fun r => a * f r + b * g r)
  = a * sum_upto k f + b * sum_upto k g.
Proof.
  induction k as [|k IH]; cbn [sum_upto]; [lra|]. rewrite IH. lra.
Qed.

Lemma sum_upto_shift k (g : Z -> R) :
  sum_upto (S k) (fun r => g (r - 1)%Z) = g (-1)%Z + sum_upto k g.
Proof.
  induction k as [|k IH].
  - cbn. lra.
  - cbn [sum_upto] in *. rewrite IH.
    replace (Z.of_nat (S k) - 1)%Z with (Z.of_nat k) by lia. lra.
Qed.
End ExactOperators.

(** X7. In exact arithmetic the value that a callback leaves in cell [row]
    of output column [i] does not depend on where the blocks lie: for every
    pointer, leading dimension and block width it is the operator
    ([apply_operator], resp. [apply_preconditioner]) applied to input column
    [i], so what holds of the operator holds of every column of every
    call. *)
Theorem callbacks_layout_independent :
  forall x ldx y ldy b (primme : primme_params R) (s : state R) i row,
    n primme <= ldy ->
    separate x ldx y ldy b (n primme) ->
    0 <= i < b -> 0 <= row < n primme ->
    doubles (LaplacianMatrixMatvec x ldx y ldy b primme s) (y + ldy * i + row)
    = apply_operator primme (fun r => doubles s (x + ldx * i + r)) row
    /\ doubles (LaplacianApplyPreconditioner x ldx y ldy b primme s)
         (y + ldy * i + row)
       = apply_preconditioner primme (fun r => doubles s (x + ldx * i + r)) row.
Proof.
  intros x ldx y ldy b primme s i row Hld Hsep Hi Hrow. split.
  - rewrite matvec_cell, apply_operator_row by assumption.
    rewrite lap_row_exact by assumption. reflexivity.
  - rewrite precond_cell, apply_preconditioner_row by assumption.
    reflexivity.
Qed.

Lemma callbacks_layout_independent_witness :
  doubles (LaplacianMatrixMatvec 0 3 6 4 2 (sample_params 3) ramp) (6 + 4 * 1 + 2)
  = apply_operator (sample_params 3) (fun r => doubles ramp (0 + 3 * 1 + r)) 2.
Proof.
  assert (Hsep : separate 0 3 6 4 2 3) by (intros i r j r' Hi Hr Hj Hr'; lia).
  apply (proj1 (callbacks_layout_independent 0 3 6 4 2 (sample_params 3) ramp
                  1 2 ltac:(cbn; lia) Hsep ltac:(lia) ltac:(cbn; lia))).
Defined.

(** X8. For a problem of dimension 1 both boundary tests of
    [LaplacianMatrixMatvec] fail in the only row, and in exact arithmetic
    the output is twice the input. *)
Theorem matvec_dimension_one :
  forall x ldx y ldy b (primme : primme_params R) (s : state R) i,
    n primme = 1 ->
    1 <= ldy ->
    separate x ldx y ldy b 1 ->
    0 <= i < b ->
    doubles (LaplacianMatrixMatvec x ldx y ldy b primme s) (y + ldy * i + 0)
    = (2 * doubles s (x + ldx * i + 0)%Z)%R.
Proof.
  intros x ldx y ldy b primme s i Hn Hld Hsep Hi.
  rewrite matvec_cell by (rewrite ?Hn; auto; lia).
  rewrite Hn. unfold lap_row. cbn. lra.
Qed.

Lemma matvec_dimension_one_witness :
  doubles (LaplacianMatrixMatvec 0 1 6 1 2 (sample_params 1) ramp) (6 + 1 * 1 + 0)
  = (2 * doubles ramp (0 + 1 * 1 + 0)%Z)%R.
Proof.
  apply (matvec_dimension_one 0 1 6 1 2 (sample_params 1) ramp 1 eq_refl);
    [lia | intros i r j r' Hi Hr Hj Hr'; lia | lia].
Defined.

(** X9. The two callbacks chained as the solver chains them, the
    preconditioner applied to the output block of the operator: in exact
    arithmetic cell [row] of column [i] of the result is
    [X[row] - (X[row-1] + X[row+1]) / 2], the terms outside [0 .. n-1] left
    out; the input block shares no cell with the intermediate block, nor
    the intermediate block with the final one. *)
Theorem preconditioned_operator :
  forall x ldx y ldy z ldz b (primme : primme_params R) (s : state R) i row,
    let dim := n primme in
    let X := fun r => doubles s (x + ldx * i + r) in
    dim <= ldy -> dim <= ldz ->
    separate x ldx y ldy b dim ->
    separate y ldy z ldz b dim ->
    0 <= i < b -> 0 <= row < dim ->
    doubles
      (LaplacianApplyPreconditioner y ldy z ldz b primme
         (LaplacianMatrixMatvec x ldx y ldy b primme s))
      (z + ldz * i + row)
    = (X row - (ext0 dim X (row - 1) + ext0 dim X (row + 1)) / 2)%R.
Proof.
  intros x ldx y ldy z ldz b primme s i row dim X Hy Hz Hxy Hyz Hi Hrow.
  rewrite precond_cell by assumption.
  rewrite matvec_cell by assumption.
  rewrite lap_row_exact by assumption.
  cbn [fdiv lit_2_0 R_Arith]. subst X dim. cbv beta. lra.
Qed.

Lemma preconditioned_operator_witness :
  doubles
    (LaplacianApplyPreconditioner 6 3 12 3 2 (sample_params 3)
       (LaplacianMatrixMatvec 0 3 6 3 2 (sample_params 3) ramp))
    (12 + 3 * 1 + 1)
  = (doubles ramp (0 + 3 * 1 + 1)%Z
     - (ext0 3 (fun r => doubles ramp (0 + 3 * 1 + r)%Z) (1 - 1)
        + ext0 3 (fun r => doubles ramp (0 + 3 * 1 + r)%Z) (1 + 1)) / 2)%R.
Proof.
  assert (Hxy : separate 0 3 6 3 2 3) by (intros i r j r' Hi Hr Hj Hr'; lia).
  assert (Hyz : separate 6 3 12 3 2 3) by (intros i r j r' Hi Hr Hj Hr'; lia).
  apply (preconditioned_operator 0 3 6 3 12 3 2 (sample_params 3) ramp 1 1
           ltac:(cbn; lia) ltac:(cbn; lia) Hxy Hyz ltac:(lia) ltac:(cbn; lia)).
Defined.

(** X10. In exact arithmetic both operators are linear: applied to
    [a*u + b*v] they give [a] times the output for [u] plus [b] times the
    output for [v], row by row. *)
Theorem operators_linear :
  forall (primme : primme_params R) (a b : R) (u v : Z -> R) row,
    0 <= row < n primme ->
    apply_operator primme (fun r => a * u r + b * v r)%R row
    = (a * apply_operator primme u row + b * apply_operator primme v row)%R
    /\ apply_preconditioner primme (fun r => a * u r + b * v r)%R row
       = (a * apply_preconditioner primme u row
          + b * apply_preconditioner primme v row)%R.
Proof.
  intros primme a b u v row Hrow. split.
  - rewrite !apply_operator_row by assumption.
    unfold ext0. zcases; try lia; lra.
  - rewrite !apply_preconditioner_row by assumption. lra.
Qed.

Lemma operators_linear_witness :
  apply_operator (sample_params 3) (fun r => 2 * IZR r + 3 * 1)%R 1
  = (2 * apply_operator (sample_params 3) IZR 1
     + 3 * apply_operator (sample_params 3) (fun _ => 1%R) 1)%R.
Proof.
  apply (proj1 (operators_linear (sample_params 3) 2 3 IZR (fun _ => 1%R) 1
                  ltac:(cbn; lia))).
Defined.

(** X11. In exact arithmetic the preconditioner is symmetric and positive
    definite, as the operator is: [<M u, v> = <u, M v>], and [0 < <u, M u>]
    for every [u] with a nonzero entry. *)
Theorem preconditioner_symmetric_positive_definite :
  forall (primme : primme_params R),
    (forall u v,
        dot (n primme) (apply_preconditioner primme u) v
        = dot (n primme) u (apply_preconditioner primme v))
    /\ (forall u,
          (exists r, 0 <= r < n primme /\ u r <> 0%R) ->
          (0 < dot (n primme) u (apply_preconditioner primme u))%R).
Proof.
  intros primme. split.
  - intros u v. unfold dot. apply sum_upto_ext. intros r Hr.
    rewrite !apply_preconditioner_row by lia. lra.
  - intros u (r0 & Hr0 & Hu).
    assert (Hdot : dot (n primme) u (apply_preconditioner primme u)
                   = sum_upto (Z.to_nat (n primme))
                       (fun r => u r * u r / 2)%R).
    { unfold dot. apply sum_upto_ext. intros r Hr.
      rewrite apply_preconditioner_row by lia. lra. }
    rewrite Hdot.
    assert (Hnn : forall r, (0 <= u r * u r / 2)%R).
    { intros r. pose proof (Rle_0_sqr (u r)) as Hsq. unfold Rsqr in Hsq. lra. }
    pose proof (sum_upto_nonneg (Z.to_nat (n primme)) _ Hnn) as Hge.
    destruct (Req_dec
                (sum_upto (Z.to_nat (n primme)) (fun r => u r * u r / 2)%R) 0)
      as [Hz|Hnz]; [|lra].
    exfalso. apply Hu.
    pose proof (sum_upto_zero _ _ Hnn Hz r0 ltac:(lia)) as H0.
    cbv beta in H0. nra.
Qed.

Lemma preconditioner_symmetric_positive_definite_witness :
  (0 < dot 3 (fun r => IZR (r + 1))
         (apply_preconditioner (sample_params 3) (fun r => IZR (r + 1))))%R.
Proof.
  apply (proj2 (preconditioner_symmetric_positive_definite (sample_params 3))).
  exists 0. split; [cbn; lia|]. cbn. lra.
Defined.

(** X12. In exact arithmetic the quadratic form of the operator is at most
    four times the squared norm, [<u, A u> <= 4 <u, u>]: with C3 the
    spectrum of the operator lies in the interval from 0 to 4. *)
Theorem operator_bounded_by_four :
  forall (primme : primme_params R) (u : Z -> R),
    (dot (n primme) u (apply_operator primme u) <= 4 * dot (n primme) u u)%R.
Proof.
  intros primme u.
  rewrite dot_apply_r. set (dim := n primme). set (e := ext0 dim u).
  rewrite (quad_telescope e).
  assert (He1 : e (Z.of_nat (Z.to_nat dim)) = 0%R)
    by (apply ext0_outside; lia).
  assert (He2 : e (-1)%Z = 0%R) by (apply ext0_outside; lia).
  rewrite He1, He2.
  assert (Huu : dot dim u u = sum_upto (Z.to_nat dim) (fun r => e r * e r)%R).
  { unfold dot. apply sum_upto_ext. intros r Hr.
    unfold e. now rewrite ext0_inside by lia. }
  rewrite Huu.
  pose proof (sum_upto_le (S (Z.to_nat dim))
                (fun r => (e r - e (r - 1)%Z) * (e r - e (r - 1)%Z))%R
                (fun r => 2 * (e r * e r)
                          + 2 * (e (r - 1)%Z * e (r - 1)%Z))%R) as Hle.
  rewrite (sum_upto_linear (S (Z.to_nat dim)) 2 2
             (fun r => e r * e r)%R (fun r => e (r - 1)%Z * e (r - 1)%Z)%R) in Hle.
  rewrite (sum_upto_shift (Z.to_nat dim) (fun r => e r * e r)%R) in Hle.
  cbn [sum_upto] in Hle. rewrite He1, He2 in Hle.
  assert (Hpt : forall r,
             ((e r - e (r - 1)%Z) * (e r - e (r - 1)%Z)
              <= 2 * (e r * e r) + 2 * (e (r - 1)%Z * e (r - 1)%Z))%R).
  { intros r. pose proof (Rle_0_sqr (e r + e (r - 1)%Z)) as Hsq.
    unfold Rsqr in Hsq. lra. }
  specialize (Hle Hpt). cbn [sum_upto]. rewrite He1. lra.
Qed.

(** ** Exact arithmetic: the spectrum *)

Section Spectrum.
Local Open Scope R_scope.

Lemma angle_times dim k :
  (0 <= dim)%Z -> IZR (dim + 1) * angle dim k = IZR k * PI.
Proof.
  intros Hdim. unfold angle. field. apply not_0_IZR. lia.
Qed.

Lemma angle_bounds dim k :
  (1 <= k <= dim)%Z -> 0 < angle dim k < PI.
Proof.
  intros Hk.
  pose proof (angle_times dim k ltac:(lia)) as Ht.
  pose proof PI_RGT_0 as Hpi.
  assert (HK : 0 < IZR k) by (apply IZR_lt; lia).
  assert (HN : IZR k < IZR (dim + 1)) by (apply IZR_lt; lia).
  split; nra.
Qed.

Lemma angle_increasing dim k k' :
  (0 <= dim)%Z -> (k < k')%Z -> angle dim k < angle dim k'.
Proof.
  intros Hdim Hk.
  pose proof (angle_times dim k Hdim) as Ht.
  pose proof (angle_times dim k' Hdim) as Ht'.
  pose proof PI_RGT_0 as Hpi.
  assert (HK : IZR k < IZR k') by (apply IZR_lt; lia).
  assert (HN : 0 < IZR (dim + 1)) by (apply IZR_lt; lia).
  nra.
Qed.

Lemma sine_vector_before dim k row :
  (0 <= row < dim)%Z ->
  ext0 dim (sine_vector dim k) (row - 1)
  = sin (IZR (row + 1) * angle dim k - angle dim k).
Proof.
  intros Hrow. unfold ext0, sine_vector.
  destruct (Z.eq_dec row 0) as [->|Hne].
  - cbn [Z.sub Z.opp Z.add Z.leb Z.compare andb].
    replace (1 * angle dim k - angle dim k) with 0 by ring.
    now rewrite sin_0.
  - zcases; try lia. f_equal.
    replace (row - 1 + 1)%Z with row by lia.
    rewrite plus_IZR. ring.
Qed.

Lemma sine_vector_after dim k row :
  (0 <= row < dim)%Z ->
  ext0 dim (sine_vector dim k) (row + 1)
  = sin (IZR (row + 1) * angle dim k + angle dim k).
Proof.
  intros Hrow. unfold ext0, sine_vector.
  destruct (Z.eq_dec (row + 1) dim) as [Heq|Hne].
  - subst dim. zcases; try lia. symmetry. apply sin_eq_0_1. exists k.
    rewrite <- (angle_times (row + 1) k) by lia.
    rewrite (plus_IZR (row + 1) 1). ring.
  - zcases; try lia. f_equal.
    rewrite (plus_IZR (row + 1) 1). ring.
Qed.
End Spectrum.

(** X13. In exact arithmetic the vectors with entries
    [sin ((r+1) * k * pi / (n+1))] are eigenvectors of the operator of
    [LaplacianMatrixMatvec], with eigenvalue [2 - 2 * cos (k * pi / (n+1))],
    for every integer [k]: this is the analytically known spectrum of the
    2/-1 tridiagonal matrix. *)
Theorem sine_vectors_are_eigenvectors :
  forall (primme : primme_params R) k row,
    0 <= row < n primme ->
    apply_operator primme (sine_vector (n primme) k) row
    = (laplacian_eigenvalue (n primme) k * sine_vector (n primme) k row)%R.
Proof.
  intros primme k row Hrow.
  rewrite apply_operator_row by assumption.
  rewrite sine_vector_before, sine_vector_after by assumption.
  rewrite sin_minus, sin_plus.
  unfold laplacian_eigenvalue, sine_vector. ring.
Qed.

Lemma sine_vectors_are_eigenvectors_witness :
  apply_operator (sample_params 3) (sine_vector 3 2) 1
  = (laplacian_eigenvalue 3 2 * sine_vector 3 2 1)%R.
Proof.
  apply (sine_vectors_are_eigenvectors (sample_params 3) 2 1). cbn. lia.
Defined.

(** X14. For [k = 1 .. n] the eigenvector of X13 is not the zero vector
    (its first entry is positive), the eigenvalue lies strictly between 0
    and 4 and grows strictly with [k], and the operator of
    [LaplacianMatrixMatvec] maps the vector to the eigenvalue times it: the
    operator has [n] distinct eigenvalues [0 < l_1 < ... < l_n < 4]. *)
Theorem laplacian_eigenvalues_distinct :
  forall (primme : primme_params R) k,
    1 <= k <= n primme ->
    (0 < sine_vector (n primme) k 0)%R
    /\ (0 < laplacian_eigenvalue (n primme) k < 4)%R
    /\ (forall k', k < k' <= n primme ->
          (laplacian_eigenvalue (n primme) k
           < laplacian_eigenvalue (n primme) k')%R)
    /\ (forall row, 0 <= row < n primme ->
          apply_operator primme (sine_vector (n primme) k) row
          = (laplacian_eigenvalue (n primme) k
             * sine_vector (n primme) k row)%R).
Proof.
  intros primme k Hk.
  assert (Heig : forall row, 0 <= row < n primme ->
            apply_operator primme (sine_vector (n primme) k) row
            = (laplacian_eigenvalue (n primme) k
               * sine_vector (n primme) k row)%R).
  { intros row Hrow. rewrite apply_operator_row by assumption.
    rewrite sine_vector_before, sine_vector_after by assumption.
    rewrite sin_minus, sin_plus.
    unfold laplacian_eigenvalue, sine_vector. ring. }
  set (dim := n primme) in *.
  pose proof (angle_bounds dim k Hk) as [Hlo Hhi].
  pose proof PI_RGT_0 as Hpi.
  split; [|split; [|split; [|exact Heig]]].
  - unfold sine_vector. cbn [Z.add]. rewrite Rmult_1_l.
    now apply sin_gt_0.
  - unfold laplacian_eigenvalue.
    assert (Hc1 : (cos (angle dim k) < cos 0)%R)
      by (apply cos_decreasing_1; lra).
    assert (Hc2 : (cos PI < cos (angle dim k))%R)
      by (apply cos_decreasing_1; lra).
    rewrite cos_0 in Hc1. rewrite cos_PI in Hc2. lra.
  - intros k' Hk'. unfold laplacian_eigenvalue.
    pose proof (angle_bounds dim k' ltac:(lia)) as [Hlo' Hhi'].
    pose proof (angle_increasing dim k k' ltac:(lia) ltac:(lia)) as Hinc.
    assert (Hc : (cos (angle dim k') < cos (angle dim k))%R)
      by (apply cos_decreasing_1; lra).
    lra.
Qed.

Lemma laplacian_eigenvalues_distinct_witness :
  (0 < laplacian_eigenvalue (n (sample_params (F := R) 3)) 2 < 4)%R.
Proof.
  exact (proj1 (proj2
           (laplacian_eigenvalues_distinct (sample_params 3) 2
              ltac:(cbn; lia)))).
Defined.


(** * Further properties of the driver *)

Lemma lines_from_ext {F : Type} (g g' : Z -> event F) (k : nat) :
  forall i,
    (forall j, i <= j < i + Z.of_nat k -> g j = g' j) ->
    lines_from k i g = lines_from k i g'.
Proof.
  induction k as [|k IH]; intros i Hg; cbn [lines_from]; [reflexivity|].
  rewrite (Hg i) by lia. f_equal. apply IH. intros j Hj. apply Hg. lia.
Qed.

Lemma report_ext {F : Type} `{Arith F} (P : string) (r1 r2 : solved F)
    (out : list (event F)) :
  primme_after r1 = primme_after r2 ->
  (forall i, 0 <= i < initSize (primme_after r1) ->
             evals r1 i = evals r2 i /\ rnorms r1 i = rnorms r2 i) ->
  report P r1 out = report P r2 out.
Proof.
  intros Hp Hv. unfold report. cbv zeta. rewrite <- Hp.
  unfold for_upto. rewrite !for_from_emit.
  rewrite (lines_from_ext
             (fun i => fprintf fmt_eval
                         [ArgInt (i + 1); ArgDouble (evals r1 i);
                          ArgDouble (rnorms r1 i)])
             (fun i => fprintf fmt_eval
                         [ArgInt (i + 1); ArgDouble (evals r2 i);
                          ArgDouble (rnorms r2 i)])).
  - reflexivity.
  - intros j Hj. destruct (Hv j ltac:(lia)) as [-> ->]. reflexivity.
Qed.

(** X15. After a solve that returned 0 the eigenpair lines of the output
    are exactly those of the entries [0 .. initSize-1] of the result
    arrays, numbered from 1: a line with the eigenpair format is in the
    output if and only if its arguments are [i+1], [evals[i]], [rnorms[i]]
    for such an [i]; with [initSize <= 0] there is none, and [numEvals]
    plays no part. *)
Theorem eigenpair_lines_are_the_converged_ones :
  forall (F : Type) (A : Arith F) (P : string) init set_method
         (dprimme : primme_params F -> solved F),
    let r := dprimme (solver_input init set_method) in
    ret r = 0 ->
    forall args,
      In (fprintf fmt_eval args) (snd (main P init set_method dprimme))
      <-> exists i,
            0 <= i < initSize (primme_after r)
            /\ args = [ArgInt (i + 1); ArgDouble (evals r i);
                       ArgDouble (rnorms r i)].
Proof.
  intros F A P init set_method dprimme r Hr args.
  rewrite (main_success P init set_method dprimme Hr). fold r. cbn [snd].
  destruct (report_shape P r [display_params (solver_input init set_method)])
    as (warning & -> & Hw).
  rewrite !in_app_iff, lines_from_In. split.
  - intros [Hin|[(j & Hj & Heq)|[Hin|[Hin|Hin]]]].
    + destruct Hin as [Hin|[]]. discriminate Hin.
    + exists j. split; [lia|]. unfold eval_line in Heq. now inversion Heq.
    + exfalso. unfold summary_lines in Hin.
      repeat (destruct Hin as [Hin|Hin]; [discriminate Hin|]). exact Hin.
    + exfalso. destruct Hw as [[_ ->]|[_ ->]]; [|exact Hin].
      unfold locking_warning in Hin.
      repeat (destruct Hin as [Hin|Hin]; [discriminate Hin|]). exact Hin.
    + exfalso. unfold recommendation in Hin.
      destruct (dynamicMethodSwitch (primme_after r) =? -1),
               (dynamicMethodSwitch (primme_after r) =? -2),
               (dynamicMethodSwitch (primme_after r) =? -3);
        repeat (destruct Hin as [Hin|Hin]; [discriminate Hin|]); exact Hin.
  - intros (i & Hi & ->). right. left.
    exists i. split; [lia|reflexivity].
Qed.

Lemma eigenpair_lines_are_the_converged_ones_witness :
  In (fprintf fmt_eval
        [ArgInt (1 + 1); ArgDouble 0.5%float; ArgDouble 0x1p-40%float])
     (snd converged_run).
Proof.
  apply (eigenpair_lines_are_the_converged_ones float float_Arith "lld"
           sample_defaults sample_set_method converged_solve eq_refl).
  exists 1. split; [cbn; lia|reflexivity].
Defined.

(** X16. The driver reads of the solver's results only the status, the
    struct, and the entries [0 .. initSize-1] of the eigenvalues and of the
    residual norms: two solvers whose results agree on these make the
    driver return and print the same; the eigenvectors and the later
    entries of the arrays are never looked at. *)
Theorem driver_reads_converged_entries_only :
  forall (F : Type) (A : Arith F) (P : string) init set_method
         (d1 d2 : primme_params F -> solved F),
    let r1 := d1 (solver_input init set_method) in
    let r2 := d2 (solver_input init set_method) in
    ret r1 = ret r2 ->
    primme_after r1 = primme_after r2 ->
    (forall i, 0 <= i < initSize (primme_after r1) ->
               evals r1 i = evals r2 i /\ rnorms r1 i = rnorms r2 i) ->
    main P init set_method d1 = main P init set_method d2.
Proof.
  intros F A P init set_method d1 d2 r1 r2 Hret Hp Hv.
  unfold main. fold r1 r2. rewrite <- Hret.
  destruct (negb (ret r1 =? 0)); [reflexivity|].
  f_equal. now apply report_ext.
Qed.

Lemma driver_reads_converged_entries_only_witness :
  main "lld" sample_defaults sample_set_method converged_solve
  = main "lld" sample_defaults sample_set_method converged_solve_variant.
Proof.
  apply (driver_reads_converged_entries_only float float_Arith "lld"
           sample_defaults sample_set_method
           converged_solve converged_solve_variant eq_refl eq_refl).
  intros i Hi. cbn in Hi.
  assert (Hlt : (i <? 2) = true) by (apply Z.ltb_lt; lia).
  unfold converged_solve_variant. cbn [evals rnorms]. rewrite Hlt. now split.
Defined.

(** On binary64 values the sum of C1 is rounded term by term: with
    [X = (2^60, 1, 0)] the middle cell is [(0.0 + -1.0*2^60) + 2.0*1.0],
    which rounds to [-2^60]. *)
Example matvec_binary64_rounds :
  let s := {| doubles := fun a => if a =? 0 then 0x1p60%float
                                  else if a =? 1 then 1%float else 0%float;
              status := -1 |} in
  doubles (LaplacianMatrixMatvec 0 3 10 3 1 (sample_params 3) s) (10 + 3 * 0 + 1)
  = (- 0x1p60)%float.
Proof. vm_compute. reflexivity. Qed.
